(** * Error capture and recovery layer of SBTechAssociates

    A shallow embedding of [src/lib/error-recovery.ts] (retry, fallback
    cache, circuit breaker, error classifier) and of the error-log
    ingestion route (schema validation, rate limiter, append-only log),
    followed by the properties the specification states about them.

    Conventions of the embedding:
    - a JavaScript [number] that the code uses as a counter, a duration or
      an epoch time is an integer of [Z], which a double holds exactly up to
      [2^53]; the product that [retry] computes for its wait can leave the
      range of the doubles and is a [JSNumber], and a [maxAttempts] that is
      not an integer is a rational of [Q] (see [retryNumber]);
    - a JavaScript string is a [string]; each character stands for one code
      unit, and only the ASCII letters take part in case conversion;
    - a [Map] is a [gmap];
    - an awaited call is a state transformer on a world [W] that returns how
      the promise settled; every call of a caller-supplied function is
      recorded in a trace of events, so that "is invoked" and "is not
      invoked" are statements about that trace. *)

From stdpp Require Import gmap strings list.
From Stdlib Require Import ZArith Lia Ascii DecimalString DecimalPos Sorted QArith Qround.

Local Close Scope Q_scope.
Local Open Scope Z_scope.
Local Set Warnings "-register-all".

(** ** Settled promises, thrown values, events *)

(** How an awaited promise settles. *)
Inductive result (T E : Type) : Type :=
| Resolved (v : T)
| Rejected (e : E).
Arguments Resolved {T E} v.
Arguments Rejected {T E} e.

(** What a [throw] statement of this module can throw: [new Error(message)],
    a value caught earlier and thrown again, or the value of a variable that
    was declared and never assigned. *)
Inductive thrown (E : Type) : Type :=
| NewError (message : string)
| Raised (e : E)
| Undefined.
Arguments NewError {E} message.
Arguments Raised {E} e.
Arguments Undefined {E}.

(** How a call of an async function of this module completes. *)
Inductive completion (T E : Type) : Type :=
| Returned (v : T)
| Threw (x : thrown E).
Arguments Returned {T E} v.
Arguments Threw {T E} x.

(** The value of an arithmetic expression on doubles whose operands are
    integers: an integer, or one of the three values that are not finite. *)
Inductive JSNumber : Type :=
| Finite (n : Z)
| Infinity
| NegativeInfinity
| NaN.

(** [Math.pow(2, n)] for an integer [n >= 0]: the powers of two up to
    [2^1023] are doubles, the larger ones overflow to [Infinity]. *)
Definition pow2 (n : Z) : JSNumber :=
  if n <? 1024 then Finite (2 ^ n) else Infinity.

(** [a * p] for a double [a] with an integer value and [p] a power of two
    or not finite. Scaling a double by a power of two is exact unless the
    result reaches [2^1024], where it overflows to the infinity of its sign;
    zero times an infinity is [NaN]. *)
Definition times (a : Z) (p : JSNumber) : JSNumber :=
  match p with
  | Finite p =>
    if Z.abs (a * p) <? 2 ^ 1024 then Finite (a * p)
    else if 0 <? a then Infinity else NegativeInfinity
  | Infinity =>
    if a =? 0 then NaN else if 0 <? a then Infinity else NegativeInfinity
  | NegativeInfinity =>
    if a =? 0 then NaN else if 0 <? a then NegativeInfinity else Infinity
  | NaN => NaN
  end.

(** The observable steps of [retry] and [execute]: one event per call of the
    supplied operation (with the way it settled), per call of [onRetry], and
    per [setTimeout] wait, with the number of milliseconds asked for. *)
Inductive event (T E : Type) : Type :=
| Invoke (r : result T E)
| OnRetry (attempt : Z) (error : E)
| Sleep (ms : JSNumber).
Arguments Invoke {T E} r.
Arguments OnRetry {T E} attempt error.
Arguments Sleep {T E} ms.

Definition is_invoke {T E} (ev : event T E) : bool :=
  match ev with Invoke _ => true | _ => false end.

(** Number of calls of the operation recorded in a trace. *)
Definition invocations {T E} (tr : list (event T E)) : nat :=
  length (List.filter is_invoke tr).

(** ** retry *)

(** [interface RetryOptions]: every field is optional. *)
Record RetryOptions (W E : Type) : Type := {
  maxAttempts : option Z;
  delay : option Z;
  backoff : option bool;
  onRetry : option (Z -> E -> W -> result unit E * W)
}.
Arguments maxAttempts {W E} _.
Arguments delay {W E} _.
Arguments backoff {W E} _.
Arguments onRetry {W E} _.

Definition noOptions {W E} : RetryOptions W E :=
  {| maxAttempts := None; delay := None; backoff := None; onRetry := None |}.

Section Retry.
Context {W T E : Type}.

Definition outcome : Type := completion T E * W * list (event T E).

(** Events that happened before the rest of the run. *)
Definition after (evs : list (event T E)) (rest : option outcome) : option outcome :=
  match rest with
  | Some (c, w, tr) => Some (c, w, evs ++ tr)
  | None => None
  end.

(** [backoff ? delay * Math.pow(2, attempt - 1) : delay], for the attempts
    [1, 2, ...] of the loop. *)
Definition currentDelay (backoff : bool) (delay attempt : Z) : JSNumber :=
  if backoff then times delay (pow2 (attempt - 1)) else Finite delay.

Section Loop.
Variable fn : W -> result T E * W.
Variables (maxAttempts delay : Z) (backoff : bool).
Variable onRetry : option (Z -> E -> W -> result unit E * W).

(** The [for] loop of [retry], one iteration per unit of fuel. [None]
    means that the fuel ran out before the loop ended. [lastError] is
    [Undefined] until the first [catch]. *)
Fixpoint retry_loop (fuel : nat) (attempt : Z) (lastError : thrown E) (w : W)
  : option outcome :=
  match fuel with
  | O => None
  | S fuel' =>
    if attempt <=? maxAttempts then
      match fn w with
      | (Resolved v, w1) => Some (Returned v, w1, [Invoke (Resolved v)])
      | (Rejected error, w1) =>
        let lastError := Raised error in
        if attempt =? maxAttempts then
          Some (Threw lastError, w1, [Invoke (Rejected error)])
        else
          match onRetry with
          | Some callback =>
            match callback attempt error w1 with
            | (Resolved _, w2) =>
              after [Invoke (Rejected error); OnRetry attempt error;
                     Sleep (currentDelay backoff delay attempt)]
                    (retry_loop fuel' (attempt + 1) lastError w2)
            | (Rejected x, w2) =>
              Some (Threw (Raised x), w2,
                    [Invoke (Rejected error); OnRetry attempt error])
            end
          | None =>
            after [Invoke (Rejected error);
                   Sleep (currentDelay backoff delay attempt)]
                  (retry_loop fuel' (attempt + 1) lastError w1)
          end
      end
    else Some (Threw lastError, w, [])
  end.
End Loop.

(** [retry(fn, options)]: the defaults of the destructuring, then the
    loop from [attempt = 1] with [lastError] unassigned. The fuel is one
    more than the number of iterations the loop can make. *)
Definition retry (fn : W -> result T E * W) (options : RetryOptions W E) (w : W)
  : option outcome :=
  let maxA := default 3 (maxAttempts options) in
  let d := default 1000 (delay options) in
  let b := default true (backoff options) in
  retry_loop fn maxA d b (onRetry options) (S (Z.to_nat maxA)) 1 Undefined w.

Section NumberLoop.
Variable fn : W -> result T E * W.
Variable maxAttempts : Q.
Variables (delay : Z) (backoff : bool).
Variable onRetry : option (Z -> E -> W -> result unit E * W).

(** The same loop when [maxAttempts] is a number that need not be an
    integer: [attempt <= maxAttempts] and [attempt === maxAttempts] compare
    the integer [attempt] with that number. *)
Fixpoint retryNumber_loop (fuel : nat) (attempt : Z) (lastError : thrown E) (w : W)
  : option outcome :=
  match fuel with
  | O => None
  | S fuel' =>
    if Qle_bool (inject_Z attempt) maxAttempts then
      match fn w with
      | (Resolved v, w1) => Some (Returned v, w1, [Invoke (Resolved v)])
      | (Rejected error, w1) =>
        let lastError := Raised error in
        if Qeq_bool (inject_Z attempt) maxAttempts then
          Some (Threw lastError, w1, [Invoke (Rejected error)])
        else
          match onRetry with
          | Some callback =>
            match callback attempt error w1 with
            | (Resolved _, w2) =>
              after [Invoke (Rejected error); OnRetry attempt error;
                     Sleep (currentDelay backoff delay attempt)]
                    (retryNumber_loop fuel' (attempt + 1) lastError w2)
            | (Rejected x, w2) =>
              Some (Threw (Raised x), w2,
                    [Invoke (Rejected error); OnRetry attempt error])
            end
          | None =>
            after [Invoke (Rejected error);
                   Sleep (currentDelay backoff delay attempt)]
                  (retryNumber_loop fuel' (attempt + 1) lastError w1)
          end
      end
    else Some (Threw lastError, w, [])
  end.
End NumberLoop.

(** [retry(fn, {...options, maxAttempts})] for a number [maxAttempts] that
    need not be an integer. The loop makes an iteration for each integer from
    1 to [maxAttempts]. *)
Definition retryNumber (fn : W -> result T E * W) (maxAttempts : Q)
    (options : RetryOptions W E) (w : W) : option outcome :=
  let d := default 1000 (delay options) in
  let b := default true (backoff options) in
  retryNumber_loop fn maxAttempts d b (onRetry options)
    (S (Z.to_nat (Qfloor maxAttempts))) 1 Undefined w.

(** What a run of failed attempts leaves in the trace: for each error, from
    attempt number [attempt] on, the failed call, the call of [onRetry]
    when one is supplied, and the wait [wait k] after attempt [k]. *)
Fixpoint failedRounds (supplied : bool) (wait : Z -> JSNumber) (attempt : Z)
    (errs : list E) : list (event T E) :=
  match errs with
  | [] => []
  | e :: errs' =>
    Invoke (Rejected e)
      :: (if supplied then [OnRetry attempt e] else [])
      ++ Sleep (wait attempt) :: failedRounds supplied wait (attempt + 1) errs'
  end.

(** [onRetry(attempt, e)], when a callback is supplied, returns normally
    and takes the world from [w1] to [w2]; without a callback the world
    stays. *)
Definition callbackReturns (onRetry : option (Z -> E -> W -> result unit E * W))
    (attempt : Z) (e : E) (w1 w2 : W) : Prop :=
  match onRetry with
  | Some callback => callback attempt e w1 = (Resolved (), w2)
  | None => w2 = w1
  end.

(** The operation fails at the attempts [attempt], [attempt + 1], ... with
    the errors [errs] in turn: the first of these calls is made in the world
    [w], each following one in the world that the failed call and the
    callback before it leave, and [w'] is the world in which the attempt
    after them would start. *)
Fixpoint attemptsFail (fn : W -> result T E * W)
    (onRetry : option (Z -> E -> W -> result unit E * W))
    (attempt : Z) (w : W) (errs : list E) (w' : W) : Prop :=
  match errs with
  | [] => w' = w
  | e :: errs' =>
    exists w1 w2,
      fn w = (Rejected e, w1)
      /\ callbackReturns onRetry attempt e w1 w2
      /\ attemptsFail fn onRetry (attempt + 1) w2 errs' w'
  end.

End Retry.

(** ** Circuit breaker *)

Module CircuitBreaker.

Inductive State : Type := CLOSED | OPEN | HALF_OPEN.

(** The private fields of [class CircuitBreaker]; the two constructor
    parameters are fields as well. *)
Record t : Type := {
  failures : Z;
  lastFailureTime : Z;
  state : State;
  failureThreshold : Z;
  resetTimeout : Z
}.

(** [new CircuitBreaker(failureThreshold = 5, resetTimeout = 60000)] *)
Definition new (failureThreshold resetTimeout : option Z) : t :=
  {| failures := 0;
     lastFailureTime := 0;
     state := CLOSED;
     failureThreshold := default 5 failureThreshold;
     resetTimeout := default 60000 resetTimeout |}.

Definition setState (s : State) (cb : t) : t :=
  {| failures := failures cb;
     lastFailureTime := lastFailureTime cb;
     state := s;
     failureThreshold := failureThreshold cb;
     resetTimeout := resetTimeout cb |}.

Definition onSuccess (cb : t) : t :=
  {| failures := 0;
     lastFailureTime := lastFailureTime cb;
     state := CLOSED;
     failureThreshold := failureThreshold cb;
     resetTimeout := resetTimeout cb |}.

(** [now] is the value of [Date.now()] read inside [onFailure]. *)
Definition onFailure (now : Z) (cb : t) : t :=
  let failures' := failures cb + 1 in
  {| failures := failures';
     lastFailureTime := now;
     state := if failureThreshold cb <=? failures' then OPEN else state cb;
     failureThreshold := failureThreshold cb;
     resetTimeout := resetTimeout cb |}.

Definition getState (cb : t) : State := state cb.

(** The guard at the head of [execute], with [now] the value of
    [Date.now()]: [None] when it throws, otherwise the breaker with which
    the operation is called. *)
Definition guard (now : Z) (cb : t) : option t :=
  match state cb with
  | OPEN =>
    if resetTimeout cb <? now - lastFailureTime cb
    then Some (setState HALF_OPEN cb)
    else None
  | _ => Some cb
  end.

(** The three places where [execute] touches the breaker. A call of
    [execute] is an [Enter] followed, when the guard lets it through, by a
    [Succeed] or a [Fail]; overlapping calls interleave these steps. *)
Inductive label : Type :=
| Enter (now : Z)
| Succeed
| Fail (now : Z).

Definition fire (cb : t) (l : label) : option t :=
  match l with
  | Enter now => guard now cb
  | Succeed => Some (onSuccess cb)
  | Fail now => Some (onFailure now cb)
  end.

(** A step whose guard throws leaves the breaker as it is. *)
Fixpoint run (cb : t) (ls : list label) : t :=
  match ls with
  | [] => cb
  | l :: ls' => run (default cb (fire cb l)) ls'
  end.

(** A breaker that is not closed has reached its threshold. This holds
    after every step, so also while calls overlap. *)
Definition tripped (cb : t) : Prop :=
  state cb <> CLOSED -> failureThreshold cb <= failures cb.

(** Between two calls that do not overlap the breaker is never
    [HALF_OPEN]. *)
Definition settled (cb : t) : Prop := state cb <> HALF_OPEN /\ tripped cb.

Section Execute.
Context {W T E : Type}.

(** [Date.now()] as a reading of the world. *)
Variable now : W -> Z.

Record executed : Type := {
  completed : completion T E;
  breaker : t;
  world : W;
  trace : list (event T E)
}.

(** [execute(fn)] for a call that no other call of the same breaker
    overlaps. *)
Definition execute (cb : t) (fn : W -> result T E * W) (w : W) : executed :=
  match guard (now w) cb with
  | None =>
    {| completed := Threw (NewError "Circuit breaker is OPEN");
       breaker := cb; world := w; trace := [] |}
  | Some cb1 =>
    match fn w with
    | (Resolved v, w1) =>
      {| completed := Returned v;
         breaker := onSuccess cb1; world := w1;
         trace := [Invoke (Resolved v)] |}
    | (Rejected error, w1) =>
      {| completed := Threw (Raised error);
         breaker := onFailure (now w1) cb1; world := w1;
         trace := [Invoke (Rejected error)] |}
    end
  end.

(** A sequence of calls, each with its operation and the world in which
    it is made. *)
Fixpoint executeAll (cb : t) (calls : list ((W -> result T E * W) * W)) : t :=
  match calls with
  | [] => cb
  | (fn, w) :: rest => executeAll (breaker (execute cb fn w)) rest
  end.

(** The operation of a call fails. *)
Definition fails (call : (W -> result T E * W) * W) : Prop :=
  exists e, (call.1 call.2).1 = Rejected e.
End Execute.

Arguments executed : clear implicits.
End CircuitBreaker.

(** The registry [circuitBreakers] and [getCircuitBreaker(key)]: the breaker
    of the key, made with the default threshold and timeout at the first
    request for it. *)
Definition getCircuitBreaker (key : string) (circuitBreakers : gmap string CircuitBreaker.t)
  : CircuitBreaker.t * gmap string CircuitBreaker.t :=
  match circuitBreakers !! key with
  | Some cb => (cb, circuitBreakers)
  | None =>
    (CircuitBreaker.new None None,
     <[key := CircuitBreaker.new None None]> circuitBreakers)
  end.

(** ** Strings *)

(** [String.prototype.toLowerCase] on the ASCII letters. *)
Definition lowerChar (c : ascii) : ascii :=
  let n := nat_of_ascii c in
  if ((65 <=? n) && (n <=? 90))%nat then ascii_of_nat (n + 32) else c.

Fixpoint toLowerCase (s : string) : string :=
  match s with
  | EmptyString => EmptyString
  | String c s' => String (lowerChar c) (toLowerCase s')
  end.

(** [s.includes(sub)]: [sub] starts at some position of [s]. *)
Fixpoint includes (s sub : string) : bool :=
  String.prefix sub s
  || match s with
     | EmptyString => false
     | String _ s' => includes s' sub
     end.

(** A number inside a template literal or given to [JSON.stringify], for
    an integer below [10^21] in magnitude: all its digits, after the sign
    when it is negative. From [10^21] on the runtime writes an exponent;
    the statuses and times of this development stay below, and where a
    number comes from a request the bound is a hypothesis. *)
Definition showNumber (n : Z) : string := NilZero.string_of_int (Z.to_int n).

(** ** Error classifier *)

Record Error : Type := { message : string }.

Inductive ErrorCategory : Type := network | validation | server | unknown.

Definition classifyError (error : Error) : ErrorCategory :=
  let message := toLowerCase (message error) in
  if includes message "fetch" || includes message "network" || includes message "timeout"
  then network
  else if includes message "validation" || includes message "invalid"
  then validation
  else if includes message "500" || includes message "server"
  then server
  else unknown.

(** [kw] occurs in [s]. *)
Definition occurs (kw s : string) : Prop := exists pre post, s = pre +:+ kw +:+ post.

(** ** Fallback cache *)

(** A string used as a condition: the empty string and an absent argument
    both count as false. *)
Definition truthy (s : option string) : option string :=
  match s with
  | Some EmptyString => None
  | _ => s
  end.

Module Response.
(** What [fetchWithFallback] reads from the [Response] of [fetch]; [json]
    is how the promise of [response.json()] settles. *)
Record t (Data E : Type) : Type := {
  ok : bool;
  status : Z;
  statusText : string;
  json : result Data E
}.
Arguments ok {Data E} _.
Arguments status {Data E} _.
Arguments statusText {Data E} _.
Arguments json {Data E} _.
End Response.

Section FetchWithFallback.
Context {W RequestInit Data E : Type}.

(** The global [fetch]. *)
Variable fetch : string -> RequestInit -> W -> result (Response.t Data E) E * W.

Record fetched : Type := {
  answer : completion Data E;
  fallbackCache : gmap string Data;
  after_fetch : W
}.

(** The [catch] block. *)
Definition useFallback (error : thrown E) (fallbackKey : option string)
    (cache : gmap string Data) (w : W) : fetched :=
  match truthy fallbackKey with
  | Some key =>
    match cache !! key with
    | Some data => {| answer := Returned data; fallbackCache := cache; after_fetch := w |}
    | None => {| answer := Threw error; fallbackCache := cache; after_fetch := w |}
    end
  | None => {| answer := Threw error; fallbackCache := cache; after_fetch := w |}
  end.

Definition fetchWithFallback (url : string) (options : RequestInit)
    (fallbackKey : option string) (cache : gmap string Data) (w : W) : fetched :=
  match fetch url options w with
  | (Rejected e, w1) => useFallback (Raised e) fallbackKey cache w1
  | (Resolved response, w1) =>
    if negb (Response.ok response) then
      useFallback
        (NewError ("HTTP " +:+ showNumber (Response.status response) +:+ ": "
                   +:+ Response.statusText response))
        fallbackKey cache w1
    else
      match Response.json response with
      | Rejected e => useFallback (Raised e) fallbackKey cache w1
      | Resolved data =>
        {| answer := Returned data;
           fallbackCache :=
             match truthy fallbackKey with
             | Some key => <[key := data]> cache
             | None => cache
             end;
           after_fetch := w1 |}
      end
  end.

(** The live call fails: [fetch] rejects, the status is not a success, or
    the body cannot be read. [failure] is what the [catch] block receives. *)
Definition liveFailure (url : string) (options : RequestInit) (w : W)
    (failure : thrown E) : Prop :=
  match fetch url options w with
  | (Rejected e, _) => failure = Raised e
  | (Resolved response, _) =>
    if Response.ok response then
      match Response.json response with
      | Rejected e => failure = Raised e
      | Resolved _ => False
      end
    else failure = NewError ("HTTP " +:+ showNumber (Response.status response) +:+ ": "
                             +:+ Response.statusText response)
  end.

(** The live call succeeds with the parsed payload [data]. *)
Definition liveSuccess (url : string) (options : RequestInit) (w : W) (data : Data) : Prop :=
  exists response w1,
    fetch url options w = (Resolved response, w1)
    /\ Response.ok response = true
    /\ Response.json response = Resolved data.
End FetchWithFallback.

Arguments fetched : clear implicits.

(** ** Ingestion endpoint: JSON *)

(** A parsed JSON document, as [request.json()] resolves to. Numbers are
    integers here. *)
Inductive JSON : Type :=
| JNull
| JBool (b : bool)
| JNumber (n : Z)
| JString (s : string)
| JArray (items : list JSON)
| JObject (members : list (string * JSON)).

(** [object[key]]: [None] is [undefined]. The members of a parsed object
    have distinct keys. *)
Fixpoint member (key : string) (members : list (string * JSON)) : option JSON :=
  match members with
  | [] => None
  | (k, v) :: rest => if decide (k = key) then Some v else member key rest
  end.

Definition doubleQuote : ascii := ascii_of_nat 34.
Definition backslash : ascii := ascii_of_nat 92.
Definition lineFeed : ascii := ascii_of_nat 10.

Definition hexDigit (n : nat) : ascii :=
  nth n ["0"; "1"; "2"; "3"; "4"; "5"; "6"; "7"; "8"; "9";
         "a"; "b"; "c"; "d"; "e"; "f"]%char "0"%char.

(** One code unit inside a string literal of [JSON.stringify]. *)
Definition escapeChar (c : ascii) : string :=
  let n := nat_of_ascii c in
  if (n =? 8)%nat then String backslash "b"
  else if (n =? 9)%nat then String backslash "t"
  else if (n =? 10)%nat then String backslash "n"
  else if (n =? 12)%nat then String backslash "f"
  else if (n =? 13)%nat then String backslash "r"
  else if (n =? 34)%nat then String backslash (String doubleQuote "")
  else if (n =? 92)%nat then String backslash (String backslash "")
  else if (n <? 32)%nat then
    String backslash
      (String "u" (String "0" (String "0"
        (String (hexDigit (n / 16)) (String (hexDigit (n mod 16)) "")))))
  else String c "".

Fixpoint escape (s : string) : string :=
  match s with
  | EmptyString => EmptyString
  | String c s' => escapeChar c +:+ escape s'
  end.

(** [JSON.stringify] of a string. *)
Definition quote (s : string) : string :=
  String doubleQuote (escape s) +:+ String doubleQuote "".

(** [JSON.stringify] of an object whose member values are already
    rendered. *)
Definition stringifyObject (members : list (string * string)) : string :=
  "{" +:+ String.concat "," (map (fun m => quote m.1 +:+ ":" +:+ m.2) members) +:+ "}".

(** Number of line feeds in a text. *)
Fixpoint lineFeeds (s : string) : nat :=
  match s with
  | EmptyString => 0%nat
  | String c s' => ((if decide (c = lineFeed) then 1 else 0) + lineFeeds s')%nat
  end.

(** ** Ingestion endpoint: schema *)

(** The [zod] checks that [ErrorLogSchema] is made of. A check receives
    the member ([None] when the key is absent) and yields the parsed value,
    or [None] when it raises a validation issue. [url] is given the test of
    well-formed URLs that the runtime provides. *)
Module z.
Definition string (v : option JSON) : option String.string :=
  match v with Some (JString s) => Some s | _ => None end.

Definition number (v : option JSON) : option Z :=
  match v with Some (JNumber n) => Some n | _ => None end.

Definition max (n : nat) (s : String.string) : option String.string :=
  if (String.length s <=? n)%nat then Some s else None.

Definition url (isURL : String.string -> bool) (s : String.string) : option String.string :=
  if isURL s then Some s else None.

Definition enum (values : list String.string) (v : option JSON) : option String.string :=
  match v with
  | Some (JString s) => if bool_decide (s ∈ values) then Some s else None
  | _ => None
  end.

Definition optional {A : Type} (check : option JSON -> option A) (v : option JSON)
  : option (option A) :=
  match v with
  | None => Some None
  | Some _ => Some <$> check v
  end.
End z.

Module ErrorLog.
(** The output of [ErrorLogSchema.parse]. *)
Record t : Type := {
  message : string;
  stack : option string;
  url : string;
  lineNumber : option Z;
  columnNumber : option Z;
  browser : option string;
  os : option string;
  timestamp : Z;
  type : string;
  userAgent : option string
}.

Definition setMessage (m : string) (v : t) : t :=
  {| message := m; stack := stack v; url := url v; lineNumber := lineNumber v;
     columnNumber := columnNumber v; browser := browser v; os := os v;
     timestamp := timestamp v; type := type v; userAgent := userAgent v |}.
End ErrorLog.

(** [ErrorLogSchema.parse(body)]: [None] when it throws. Keys that the schema
    does not name are dropped. *)
Definition ErrorLogSchema (isURL : string -> bool) (body : JSON) : option ErrorLog.t :=
  match body with
  | JObject members =>
    message ← z.string (member "message" members) ≫= z.max 1000;
    stack ← z.optional z.string (member "stack" members);
    url ← z.string (member "url" members) ≫= z.url isURL;
    lineNumber ← z.optional z.number (member "lineNumber" members);
    columnNumber ← z.optional z.number (member "columnNumber" members);
    browser ← z.optional z.string (member "browser" members);
    os ← z.optional z.string (member "os" members);
    timestamp ← z.number (member "timestamp" members);
    type ← z.enum ["error"; "unhandledrejection"] (member "type" members);
    userAgent ← z.optional z.string (member "userAgent" members);
    Some {| ErrorLog.message := message; ErrorLog.stack := stack; ErrorLog.url := url;
            ErrorLog.lineNumber := lineNumber; ErrorLog.columnNumber := columnNumber;
            ErrorLog.browser := browser; ErrorLog.os := os;
            ErrorLog.timestamp := timestamp; ErrorLog.type := type;
            ErrorLog.userAgent := userAgent |}
  | _ => None
  end.

(** A member that is written only when its value is present. *)
Definition present {A : Type} (key : string) (render : A -> string) (v : option A)
  : list (string * string) :=
  match v with
  | Some a => [(key, render a)]
  | None => []
  end.

(** [JSON.stringify({...validatedData, ip, serverTimestamp})] *)
Definition stringifyErrorLog (v : ErrorLog.t) (ip : string) (serverTimestamp : Z) : string :=
  stringifyObject
    ([("message", quote (ErrorLog.message v))]
     ++ present "stack" quote (ErrorLog.stack v)
     ++ [("url", quote (ErrorLog.url v))]
     ++ present "lineNumber" showNumber (ErrorLog.lineNumber v)
     ++ present "columnNumber" showNumber (ErrorLog.columnNumber v)
     ++ present "browser" quote (ErrorLog.browser v)
     ++ present "os" quote (ErrorLog.os v)
     ++ [("timestamp", showNumber (ErrorLog.timestamp v));
         ("type", quote (ErrorLog.type v))]
     ++ present "userAgent" quote (ErrorLog.userAgent v)
     ++ [("ip", quote ip); ("serverTimestamp", showNumber serverTimestamp)]).

(** ** Reading a line of the log back *)

(** The reader below is the part of [JSON.parse] that a line of the log
    needs: an object whose members are strings and integers in decimal
    notation. It is used to say what a line holds. *)













(** ** Ingestion endpoint: rate limiter *)

Record RateLimitRecord : Type := { count : Z; resetTime : Z }.

(** [checkRateLimit(ip)] with [now] the value of [Date.now()]. *)
Definition checkRateLimit (ip : string) (now : Z) (rateLimitStore : gmap string RateLimitRecord)
  : bool * gmap string RateLimitRecord :=
  let windowMs := 60 * 1000 in
  let maxRequests := 10 in
  match rateLimitStore !! ip with
  | None =>
    (true, <[ip := {| count := 1; resetTime := now + windowMs |}]> rateLimitStore)
  | Some record =>
    if resetTime record <? now then
      (true, <[ip := {| count := 1; resetTime := now + windowMs |}]> rateLimitStore)
    else if maxRequests <=? count record then (false, rateLimitStore)
    else
      (true,
       <[ip := {| count := count record + 1; resetTime := resetTime record |}]>
         rateLimitStore)
  end.

(** The record of a client is absent or its window is over. *)
Definition startsWindow (ip : string) (now : Z) (store : gmap string RateLimitRecord) : Prop :=
  store !! ip = None \/ exists record, store !! ip = Some record /\ resetTime record < now.

(** The body of the [setInterval] callback: expired records are deleted. *)
Definition cleanup (now : Z) (rateLimitStore : gmap string RateLimitRecord)
  : gmap string RateLimitRecord :=
  filter (fun entry => now <= resetTime entry.2) rateLimitStore.

(** Requests of one client at the given times, in order: the decisions and
    the store left behind. *)
Fixpoint checkAll (ip : string) (times : list Z) (rateLimitStore : gmap string RateLimitRecord)
  : list bool * gmap string RateLimitRecord :=
  match times with
  | [] => ([], rateLimitStore)
  | now :: rest =>
    let '(admitted, store1) := checkRateLimit ip now rateLimitStore in
    let '(decisions, store2) := checkAll ip rest store1 in
    (admitted :: decisions, store2)
  end.

(** ** Ingestion endpoint: POST *)

Module NextRequest.
(** What [POST] reads from the request: [request.ip], the header
    [x-forwarded-for], and what [request.json()] resolves to ([None] when
    it rejects). *)
Record t : Type := {
  ip : option string;
  x_forwarded_for : option string;
  json : option JSON
}.
End NextRequest.

Module NextResponse.
(** [NextResponse.json({ success, error }, { status })] *)
Record t : Type := {
  status : Z;
  success : bool;
  error : option string
}.
End NextResponse.

(** The [logs] directory and the contents of [logs/frontend-errors.log]. *)
Record FileSystem : Type := {
  logDirExists : bool;
  logFile : string
}.

(** The state that outlives a request. *)
Record Server : Type := {
  rateLimitStore : gmap string RateLimitRecord;
  disk : FileSystem
}.

(** What a request finds around it: the two readings of [Date.now()], and
    whether the file system refuses to create the directory or to append. *)
Record Runtime : Type := {
  dateNow : Z;
  dateNowLogged : Z;
  mkdirSyncFails : bool;
  appendFileSyncFails : bool
}.

(** Statements inside the [try] block: they change the server state and either
    continue with a value or throw ([None]). *)
Definition Try (A : Type) : Type := Server -> option A * Server.

#[export] Instance Try_ret : MRet Try := fun A a srv => (Some a, srv).

#[export] Instance Try_bind : MBind Try := fun A B f m srv =>
  match m srv with
  | (Some a, srv') => f a srv'
  | (None, srv') => (None, srv')
  end.

(** A value that is there, or a throw. *)
Definition orThrow {A : Type} (v : option A) : Try A := fun srv => (v, srv).

Definition rateLimited (ip : string) (now : Z) : Try bool := fun srv =>
  let '(admitted, store) := checkRateLimit ip now (rateLimitStore srv) in
  (Some admitted, {| rateLimitStore := store; disk := disk srv |}).

(** [fs.existsSync(logDir)] *)
Definition existsSync : Try bool := fun srv =>
  (Some (logDirExists (disk srv)), srv).

(** [fs.mkdirSync(logDir, { recursive: true })] *)
Definition mkdirSync (fails : bool) : Try unit := fun srv =>
  if fails then (None, srv)
  else (Some (),
        {| rateLimitStore := rateLimitStore srv;
           disk := {| logDirExists := true; logFile := logFile (disk srv) |} |}).

(** [fs.appendFileSync(logFile, data)]: all of [data] is added at the end,
    or the call throws and the file is as before. *)
Definition appendFileSync (fails : bool) (data : string) : Try unit := fun srv =>
  if fails || negb (logDirExists (disk srv)) then (None, srv)
  else (Some (),
        {| rateLimitStore := rateLimitStore srv;
           disk := {| logDirExists := true; logFile := logFile (disk srv) +:+ data |} |}).

(** [request.ip || request.headers.get('x-forwarded-for') || 'unknown'] *)
Definition clientIp (request : NextRequest.t) : string :=
  match truthy (NextRequest.ip request) with
  | Some ip => ip
  | None =>
    match truthy (NextRequest.x_forwarded_for request) with
    | Some forwarded => forwarded
    | None => "unknown"
    end
  end.

(** The store after the rate limiter has seen the request. *)
Definition counted (request : NextRequest.t) (rt : Runtime) (srv : Server)
  : gmap string RateLimitRecord :=
  (checkRateLimit (clientIp request) (dateNow rt) (rateLimitStore srv)).2.

Definition tooManyRequests : NextResponse.t :=
  {| NextResponse.status := 429; NextResponse.success := false;
     NextResponse.error := Some "Rate limit exceeded"%string |}.

Definition badRequest : NextResponse.t :=
  {| NextResponse.status := 400; NextResponse.success := false;
     NextResponse.error := Some "Invalid error log format"%string |}.

Definition succeeded : NextResponse.t :=
  {| NextResponse.status := 200; NextResponse.success := true;
     NextResponse.error := None |}.

Section POST.
(** The test of well-formed URLs behind [z.string().url()]. *)
Variable isURL : string -> bool.

(** The [try] block of [POST]. Writing to the console is left out. *)
Definition tryBlock (request : NextRequest.t) (rt : Runtime) : Try NextResponse.t :=
  let ip := clientIp request in
  admitted ← rateLimited ip (dateNow rt);
  if negb admitted then mret tooManyRequests
  else
    body ← orThrow (NextRequest.json request);
    validatedData ← orThrow (ErrorLogSchema isURL body);
    let errorLog := stringifyErrorLog validatedData ip (dateNowLogged rt) in
    dirExists ← existsSync;
    (if negb dirExists then mkdirSync (mkdirSyncFails rt) else mret ());;
    appendFileSync (appendFileSyncFails rt) (errorLog +:+ String lineFeed "");;
    mret succeeded.

(** [POST(request)]: the [try] block, and the [catch] block for whatever it
    throws. *)
Definition POST (request : NextRequest.t) (rt : Runtime) (srv : Server)
  : NextResponse.t * Server :=
  match tryBlock request rt srv with
  | (Some response, srv') => (response, srv')
  | (None, srv') => (badRequest, srv')
  end.

(** The request passes the rate limiter. *)
Definition admitted (request : NextRequest.t) (rt : Runtime) (srv : Server) : Prop :=
  (checkRateLimit (clientIp request) (dateNow rt) (rateLimitStore srv)).1 = true.

(** The body cannot be read or does not pass the schema. *)
Definition invalidBody (request : NextRequest.t) : Prop :=
  match NextRequest.json request with
  | None => True
  | Some body => ErrorLogSchema isURL body = None
  end.

(** The file system lets the handler create the directory when it has to,
    and append. *)
Definition persists (rt : Runtime) (srv : Server) : Prop :=
  (logDirExists (disk srv) = false -> mkdirSyncFails rt = false)
  /\ appendFileSyncFails rt = false.
End POST.

Definition is4xx (status : Z) : Prop := 400 <= status < 500.
Definition is5xx (status : Z) : Prop := 500 <= status < 600.

(** ** Sample operations *)

(** An operation on a counter that fails twice and then succeeds. *)
Definition flaky (w : nat) : result nat string * nat :=
  ((if (w <? 2)%nat then Rejected "timeout" else Resolved w), S w).

(** A dependency that is down and one that is up; the world is the clock,
    and a call takes one millisecond. *)
Definition down (w : Z) : result nat string * Z := (Rejected "fetch failed", w + 1).
Definition up (w : Z) : result nat string * Z := (Resolved 7%nat, w + 1).


(** Five calls at time 100 of the dependency that is down. *)
Definition five_failures : list ((Z -> result nat string * Z) * Z) :=
  replicate 5 (down, 100).

Definition tripped_breaker : CircuitBreaker.t :=
  CircuitBreaker.executeAll id (CircuitBreaker.new None None) five_failures.

(** A server reached through a network that is up ([true]) or down
    ([false]); the payload is a number. *)
Definition sampleFetch (url : string) (options : unit) (up : bool)
  : result (Response.t nat string) string * bool :=
  (if up
   then Resolved {| Response.ok := true; Response.status := 200;
                    Response.statusText := "OK"; Response.json := Resolved 42%nat |}
   else Rejected "network down"%string,
   up).

(** ** Sample requests *)

(** A stand-in for the URL test of the runtime. *)
Definition sampleIsURL (s : string) : bool := String.prefix "https://" s.

Definition sampleMembers : list (string * JSON) :=
  [("url", JString "https://sbtech.example/contact");
   ("timestamp", JNumber 1700000000000);
   ("type", JString "error");
   ("lineNumber", JNumber 12);
   ("token", JString "dropped")].

(** A report with message [m]. *)
Definition sampleBody (m : string) : JSON :=
  JObject (("message", JString m) :: sampleMembers).

Definition sampleRequest (body : JSON) : NextRequest.t :=
  {| NextRequest.ip := None;
     NextRequest.x_forwarded_for := Some "203.0.113.7"%string;
     NextRequest.json := Some body |}.

Definition sampleRuntime : Runtime :=
  {| dateNow := 1700000000400; dateNowLogged := 1700000000401;
     mkdirSyncFails := false; appendFileSyncFails := false |}.

(** The disk refuses the append. *)
Definition fullDisk : Runtime :=
  {| dateNow := 1700000000400; dateNowLogged := 1700000000401;
     mkdirSyncFails := false; appendFileSyncFails := true |}.

Definition freshServer : Server :=
  {| rateLimitStore := ∅; disk := {| logDirExists := false; logFile := "" |} |}.

(** [n] times the letter x. *)
Fixpoint xs (n : nat) : string :=
  match n with
  | O => EmptyString
  | S n' => String "x" (xs n')
  end.

(** [n] requests, one millisecond apart, from [start] on. *)
Fixpoint seq_times (start : Z) (n : nat) : list Z :=
  match n with
  | O => []
  | S n' => start :: seq_times (start + 1) n'
  end.

(** * Further code of the same files *)

(** ** Debounced error reporting *)

Definition ERROR_REPORT_DEBOUNCE : Z := 5000.

Section Debounce.
Context {W E : Type}.

(** [Date.now()] as a reading of the world. *)
Variable now : W -> Z.

Record debounced : Type := {
  reported : completion unit E;
  errorReportQueue : gmap string Z;
  after_report : W;
  report_trace : list (event unit E)
}.

(** [!lastReport || now - lastReport > ERROR_REPORT_DEBOUNCE]: a key never
    seen and a recorded time of 0 both make the first test true. *)
Definition reportDue (lastReport : option Z) (now : Z) : bool :=
  match lastReport with
  | None => true
  | Some last => (last =? 0) || (ERROR_REPORT_DEBOUNCE <? now - last)
  end.

(** [debouncedErrorReport(errorKey, reportFn)]: the time is recorded before
    [reportFn] is called, and what [reportFn] throws is not caught. *)
Definition debouncedErrorReport (errorKey : string) (reportFn : W -> result unit E * W)
    (queue : gmap string Z) (w : W) : debounced :=
  if reportDue (queue !! errorKey) (now w) then
    match reportFn w with
    | (Resolved _, w1) =>
      {| reported := Returned (); errorReportQueue := <[errorKey := now w]> queue;
         after_report := w1; report_trace := [Invoke (Resolved ())] |}
    | (Rejected e, w1) =>
      {| reported := Threw (Raised e); errorReportQueue := <[errorKey := now w]> queue;
         after_report := w1; report_trace := [Invoke (Rejected e)] |}
    end
  else
    {| reported := Returned (); errorReportQueue := queue;
       after_report := w; report_trace := [] |}.

(** Calls for one key, each with its report function and its world: the
    times of the calls that reached [reportFn], and the queue at the end. *)
Fixpoint reportAll (errorKey : string) (calls : list ((W -> result unit E * W) * W))
    (queue : gmap string Z) : list Z * gmap string Z :=
  match calls with
  | [] => ([], queue)
  | (reportFn, w) :: rest =>
    let r := debouncedErrorReport errorKey reportFn queue w in
    let '(times, queue') := reportAll errorKey rest (errorReportQueue r) in
    (match report_trace r with [] => times | _ => now w :: times end, queue')
  end.
End Debounce.

Arguments debounced : clear implicits.

(** The second time is more than the debounce interval after the first. *)
Definition spaced (a b : Z) : Prop := ERROR_REPORT_DEBOUNCE < b - a.

(** ** Calls through the registry of circuit breakers *)

Section Registry.
Context {W T E : Type}.
Variable now : W -> Z.

(** [getCircuitBreaker(key).execute(fn)]: the registry holds the breaker
    object itself, so what [execute] does to it is seen by the next
    [getCircuitBreaker(key)]. *)
Definition executeFor (key : string) (fn : W -> result T E * W) (w : W)
    (circuitBreakers : gmap string CircuitBreaker.t)
  : CircuitBreaker.executed W T E * gmap string CircuitBreaker.t :=
  let '(cb, registry) := getCircuitBreaker key circuitBreakers in
  let r := CircuitBreaker.execute now cb fn w in
  (r, <[key := CircuitBreaker.breaker r]> registry).

(** Calls for any keys, in order. *)
Fixpoint executeForAll (traffic : list (string * ((W -> result T E * W) * W)))
    (circuitBreakers : gmap string CircuitBreaker.t) : gmap string CircuitBreaker.t :=
  match traffic with
  | [] => circuitBreakers
  | (key, (fn, w)) :: rest =>
    executeForAll rest (executeFor key fn w circuitBreakers).2
  end.

(** The calls made for one key. *)
Definition callsFor (key : string) (traffic : list (string * ((W -> result T E * W) * W)))
  : list ((W -> result T E * W) * W) :=
  snd <$> filter (fun call => call.1 = key) traffic.
End Registry.

(** ** Waiting time of [retry] *)

(** The milliseconds asked of [setTimeout] along a trace, when every wait
    is a finite number. *)
Fixpoint totalWait {T E : Type} (tr : list (event T E)) : option Z :=
  match tr with
  | [] => Some 0
  | Sleep (Finite ms) :: tr' => Z.add ms <$> totalWait tr'
  | Sleep _ :: _ => None
  | _ :: tr' => totalWait tr'
  end.

(** ** Order of the categories *)

(** The place of a category in the order in which [classifyError] tests
    for them. *)
Definition rank (c : ErrorCategory) : nat :=
  match c with
  | network => 0
  | validation => 1
  | server => 2
  | unknown => 3
  end.

(** ** Traffic at the rate limiter and at the endpoint *)

(** What happens to the store: a request of a client, or the periodic
    sweep. *)
Inductive limiterStep : Type :=
| Checked (ip : string) (now : Z)
| Swept (now : Z).

Fixpoint limiterRun (steps : list limiterStep) (store : gmap string RateLimitRecord)
  : gmap string RateLimitRecord :=
  match steps with
  | [] => store
  | Checked ip now :: rest => limiterRun rest (checkRateLimit ip now store).2
  | Swept now :: rest => limiterRun rest (cleanup now store)
  end.

(** Requests handled one after the other, each with what it finds around
    it: the answers and the server at the end. *)
Fixpoint POSTs (isURL : string -> bool) (requests : list (NextRequest.t * Runtime))
    (srv : Server) : list NextResponse.t * Server :=
  match requests with
  | [] => ([], srv)
  | (request, rt) :: rest =>
    let '(response, srv1) := POST isURL request rt srv in
    let '(responses, srv2) := POSTs isURL rest srv1 in
    (response :: responses, srv2)
  end.

(** Number of answers with status 200. *)
Definition accepted (responses : list NextResponse.t) : nat :=
  length (List.filter (fun response => NextResponse.status response =? 200) responses).

(** The keys that [ErrorLogSchema] names. *)
Definition schemaKeys : list string :=
  ["message"; "stack"; "url"; "lineNumber"; "columnNumber"; "browser"; "os";
   "timestamp"; "type"; "userAgent"].

(** ** Backend error middleware *)

(** What a [catch] clause of the middleware receives. [null] and
    [undefined] have no properties; of anything else the middleware reads
    [message] and [stack], which are strings when they are there. *)
Inductive Caught : Type :=
| Nullish
| Thing (message : option string) (stack : option string).

Module Handled.
(** What [logBackendError] reads from the request besides what [POST]
    reads. *)
Record t : Type := {
  request : NextRequest.t;
  url : string;
  method : string;
  user_agent : option string
}.
End Handled.

(** The [logs] directory with the log of the endpoint, and
    [logs/backend-errors.log]. *)
Record LogDisk : Type := {
  frontend : FileSystem;
  backendLog : string
}.

Record BackendRuntime : Type := {
  development : bool;
  backendNow : Z;
  backendMkdirFails : bool;
  backendAppendFails : bool
}.

(** [s || fallback] for a string that may be absent. *)
Definition orElse (s : option string) (fallback : string) : string :=
  default fallback (truthy s).

(** [JSON.stringify(errorLog)] for the record that [logBackendError]
    builds. *)
Definition stringifyBackendError (message : option string) (stack : option string)
    (request : option Handled.t) (now : Z) : string :=
  stringifyObject
    ([("message", quote (orElse message "Unknown error"))]
     ++ present "stack" quote stack
     ++ [("url", quote (orElse (Handled.url <$> request) ""));
         ("method", quote (orElse (Handled.method <$> request) ""));
         ("timestamp", showNumber now);
         ("type", quote "backend");
         ("userAgent", quote (orElse (request ≫= Handled.user_agent) ""));
         ("ip", quote (match request with
                       | Some r => clientIp (Handled.request r)
                       | None => "unknown"
                       end))]).

(** [logBackendError(error, request)]: [None] when it throws, which it does
    for a nullish [error] before it touches the disk, and when the file
    system refuses. *)
Definition logBackendError (error : Caught) (request : option Handled.t)
    (rt : BackendRuntime) (disk : LogDisk) : option unit * LogDisk :=
  match error with
  | Nullish => (None, disk)
  | Thing message stack =>
    let line := stringifyBackendError message stack request (backendNow rt) in
    if negb (logDirExists (frontend disk)) && backendMkdirFails rt then (None, disk)
    else if backendAppendFails rt then
      (None,
       {| frontend := {| logDirExists := true; logFile := logFile (frontend disk) |};
          backendLog := backendLog disk |})
    else
      (Some (),
       {| frontend := {| logDirExists := true; logFile := logFile (frontend disk) |};
          backendLog := backendLog disk +:+ (line +:+ String lineFeed "") |})
  end.

(** How a call of the wrapped handler ends: with the answer of the
    handler, with the answer of the middleware, or with an exception that
    leaves the middleware. *)
Inductive handled (R : Type) : Type :=
| Passed (response : R)
| Answered (response : NextResponse.t)
| Escaped.
Arguments Passed {R} response.
Arguments Answered {R} response.
Arguments Escaped {R}.

Section WithErrorHandler.
Context {W R : Type}.

(** [withErrorHandler(handler)(request, context)] *)
Definition withErrorHandler (handler : Handled.t -> W -> result R Caught * W)
    (request : Handled.t) (rt : BackendRuntime) (w : W) (disk : LogDisk)
  : handled R * W * LogDisk :=
  match handler request w with
  | (Resolved response, w1) => (Passed response, w1, disk)
  | (Rejected error, w1) =>
    match logBackendError error (Some request) rt disk with
    | (None, disk1) => (Escaped, w1, disk1)
    | (Some _, disk1) =>
      (Answered
         {| NextResponse.status := 500;
            NextResponse.success := false;
            NextResponse.error :=
              if development rt then
                match error with
                | Thing message _ => message
                | Nullish => None
                end
              else Some "Internal Server Error. Please try again later."%string |},
       w1, disk1)
    end
  end.
End WithErrorHandler.

(** ** Client: notifications and reports *)

(** [message.substring(0, n)]: a negative [n] counts as 0, and an [n] past
    the end as the length. *)
Definition substringTo (n : Z) (message : string) : string :=
  String.substring 0 (Z.to_nat n) message.

(** [truncateMessage(message, maxLength = 200)] *)
Definition truncateMessage (message : string) (maxLength : option Z) : string :=
  let maxLength := default 200 maxLength in
  if Z.of_nat (String.length message) <=? maxLength then message
  else substringTo (maxLength - 3) message +:+ "...".

Module BrowserInfo.
Record t : Type := { browser : string; os : string }.
End BrowserInfo.

(** [getBrowserInfo()], with [navigator.userAgent] as the argument; [None]
    when there is no [navigator]. The tests are on the text as it is, capital
    letters included. *)
Definition getBrowserInfo (navigator : option string) : BrowserInfo.t :=
  match navigator with
  | None => {| BrowserInfo.browser := "Unknown"; BrowserInfo.os := "Unknown" |}
  | Some userAgent =>
    {| BrowserInfo.browser :=
         if includes userAgent "Chrome" && negb (includes userAgent "Edg") then "Chrome"
         else if includes userAgent "Firefox" then "Firefox"
         else if includes userAgent "Safari" && negb (includes userAgent "Chrome")
         then "Safari"
         else if includes userAgent "Edg" then "Edge"
         else if includes userAgent "Opera" then "Opera"
         else "Unknown";
       BrowserInfo.os :=
         if includes userAgent "Windows" then "Windows"
         else if includes userAgent "Mac" then "macOS"
         else if includes userAgent "Linux" then "Linux"
         else if includes userAgent "Android" then "Android"
         else if includes userAgent "iOS" then "iOS"
         else "Unknown" |}
  end.

Module ErrorData.
(** [interface ErrorData] *)
Record t : Type := {
  message : string;
  stack : option string;
  url : string;
  lineNumber : option Z;
  columnNumber : option Z;
  browser : option string;
  os : option string;
  timestamp : Z;
  type : string;
  userAgent : option string;
  componentStack : option string
}.
End ErrorData.

Module ErrorEvent.
(** What [handleGlobalError] reads from the event; [stack] is
    [event.error?.stack]. *)
Record t : Type := {
  message : string;
  stack : option string;
  lineno : Z;
  colno : Z
}.
End ErrorEvent.

(** The page: [window.location.href] and [navigator.userAgent], each absent
    outside a browser, and [Date.now()]. *)
Record Page : Type := {
  href : option string;
  navigatorUserAgent : option string;
  pageNow : Z
}.

(** The [errorData] of [handleGlobalError(event)]. *)
Definition globalErrorData (event : ErrorEvent.t) (page : Page) : ErrorData.t :=
  let info := getBrowserInfo (navigatorUserAgent page) in
  {| ErrorData.message := ErrorEvent.message event;
     ErrorData.stack := ErrorEvent.stack event;
     ErrorData.url := default "" (href page);
     ErrorData.lineNumber := Some (ErrorEvent.lineno event);
     ErrorData.columnNumber := Some (ErrorEvent.colno event);
     ErrorData.browser := Some (BrowserInfo.browser info);
     ErrorData.os := Some (BrowserInfo.os info);
     ErrorData.timestamp := pageNow page;
     ErrorData.type := "error";
     ErrorData.userAgent := Some (default "" (navigatorUserAgent page));
     ErrorData.componentStack := None |}.

(** The [errorData] of [handleUnhandledRejection(event)]; the two arguments
    are [event.reason?.message] and [event.reason?.stack]. *)
Definition rejectionErrorData (reasonMessage reasonStack : option string) (page : Page)
  : ErrorData.t :=
  let info := getBrowserInfo (navigatorUserAgent page) in
  {| ErrorData.message := orElse reasonMessage "Unhandled Promise Rejection";
     ErrorData.stack := reasonStack;
     ErrorData.url := default "" (href page);
     ErrorData.lineNumber := None;
     ErrorData.columnNumber := None;
     ErrorData.browser := Some (BrowserInfo.browser info);
     ErrorData.os := Some (BrowserInfo.os info);
     ErrorData.timestamp := pageNow page;
     ErrorData.type := "unhandledrejection";
     ErrorData.userAgent := Some (default "" (navigatorUserAgent page));
     ErrorData.componentStack := None |}.

(** A member that is sent only when its value is present. *)
Definition sent {A : Type} (key : string) (toJSON : A -> JSON) (v : option A)
  : list (string * JSON) :=
  match v with
  | Some a => [(key, toJSON a)]
  | None => []
  end.

(** The document that [request.json()] resolves to when the body of the
    request is [JSON.stringify(errorData)], as [sendErrorToBackend] sends
    it: the members that are present, in the order of the record. *)
Definition sentBody (d : ErrorData.t) : JSON :=
  JObject
    ([("message", JString (ErrorData.message d))]
     ++ sent "stack" JString (ErrorData.stack d)
     ++ [("url", JString (ErrorData.url d))]
     ++ sent "lineNumber" JNumber (ErrorData.lineNumber d)
     ++ sent "columnNumber" JNumber (ErrorData.columnNumber d)
     ++ sent "browser" JString (ErrorData.browser d)
     ++ sent "os" JString (ErrorData.os d)
     ++ [("timestamp", JNumber (ErrorData.timestamp d));
         ("type", JString (ErrorData.type d))]
     ++ sent "userAgent" JString (ErrorData.userAgent d)
     ++ sent "componentStack" JString (ErrorData.componentStack d)).

(** The report as the endpoint stores it: every member but
    [componentStack]. *)
Definition storedReport (d : ErrorData.t) : ErrorLog.t :=
  {| ErrorLog.message := ErrorData.message d; ErrorLog.stack := ErrorData.stack d;
     ErrorLog.url := ErrorData.url d; ErrorLog.lineNumber := ErrorData.lineNumber d;
     ErrorLog.columnNumber := ErrorData.columnNumber d;
     ErrorLog.browser := ErrorData.browser d; ErrorLog.os := ErrorData.os d;
     ErrorLog.timestamp := ErrorData.timestamp d; ErrorLog.type := ErrorData.type d;
     ErrorLog.userAgent := ErrorData.userAgent d |}.

(** A Chrome, an Edge and an Android user agent. *)
Definition chromeUA : string :=
  "Mozilla/5.0 (Windows NT 10.0; Win64; x64) AppleWebKit/537.36 (KHTML, like Gecko) Chrome/120.0.0.0 Safari/537.36".
Definition edgeUA : string :=
  "Mozilla/5.0 (Windows NT 10.0; Win64; x64) AppleWebKit/537.36 (KHTML, like Gecko) Chrome/120.0.0.0 Safari/537.36 Edg/120.0.0.0".
Definition androidUA : string :=
  "Mozilla/5.0 (Linux; Android 13; Pixel 7) AppleWebKit/537.36 (KHTML, like Gecko) Chrome/120.0.0.0 Mobile Safari/537.36".

Definition samplePage : Page :=
  {| href := Some "https://sbtech.example/contact"%string;
     navigatorUserAgent := Some chromeUA;
     pageNow := 1700000000000 |}.

Definition sampleEvent (m : string) : ErrorEvent.t :=
  {| ErrorEvent.message := m; ErrorEvent.stack := None;
     ErrorEvent.lineno := 12; ErrorEvent.colno := 7 |}.

(** A handler that throws, as the test route does for [type=runtime]. *)
Definition throwingHandler (request : Handled.t) (w : unit) : result nat Caught * unit :=
  (Rejected (Thing (Some "This is a test runtime error"%string) None), w).

(** A handler that throws [null]. *)
Definition nullHandler (request : Handled.t) (w : unit) : result nat Caught * unit :=
  (Rejected Nullish, w).

Definition sampleHandled : Handled.t :=
  {| Handled.request := sampleRequest JNull;
     Handled.url := "https://sbtech.example/api/test-error?type=runtime";
     Handled.method := "GET";
     Handled.user_agent := Some chromeUA |}.

Definition production : BackendRuntime :=
  {| development := false; backendNow := 1700000000000;
     backendMkdirFails := false; backendAppendFails := false |}.

Definition emptyLogs : LogDisk :=
  {| frontend := {| logDirExists := false; logFile := "" |}; backendLog := "" |}.

(** * Properties *)

Section RetryFacts.
Context {W T E : Type}.
Implicit Types (fn : W -> result T E * W) (w : W) (tr : list (event T E)).

Lemma invocations_app tr1 tr2 :
  invocations (tr1 ++ tr2) = (invocations tr1 + invocations tr2)%nat.
Proof. unfold invocations. by rewrite List.filter_app, length_app. Qed.

Lemma invocations_failedRounds s wait k (errs : list E) :
  invocations (failedRounds (T:=T) s wait k errs) = length errs.
Proof.
  revert k. induction errs as [|e errs IH]; intros k; [done|].
  cbn [failedRounds]. specialize (IH (k + 1)). unfold invocations in *.
  destruct s; cbn; by rewrite IH.
Qed.


(** The wait after attempt [k] as a number: [delay] without backoff; with
    backoff the exact product [delay * 2^(k-1)] as long as it is below
    [2^1024] in magnitude, and beyond that the infinity of the sign of
    [delay], or [NaN] for a [delay] of zero. *)
Lemma currentDelay_value b d k :
  1 <= k ->
  currentDelay b d k
  = if negb b then Finite d
    else if d =? 0 then (if k <=? 1024 then Finite 0 else NaN)
    else if Z.abs d * 2 ^ (k - 1) <? 2 ^ 1024 then Finite (d * 2 ^ (k - 1))
    else if 0 <? d then Infinity else NegativeInfinity.
Proof.
  intros Hk. unfold currentDelay, pow2, times. destruct b; [|done]. cbn [negb].
  remember (2 ^ 1024) as top eqn:Htop.
  assert (0 < top) as Htoppos by (subst top; apply Z.pow_pos_nonneg; lia).
  assert (0 < 2 ^ (k - 1)) as Hpos by (apply Z.pow_pos_nonneg; lia).
  destruct (Z.eqb_spec d 0) as [->|Hd].
  - destruct (Z.leb_spec k 1024), (Z.ltb_spec (k - 1) 1024); try lia; [|done].
    rewrite Z.mul_0_l. change (Z.abs 0) with 0.
    destruct (Z.ltb_spec 0 top); [done|lia].
  - destruct (Z.ltb_spec (k - 1) 1024) as [Hin|Hout].
    + rewrite Z.abs_mul, (Z.abs_eq (2 ^ (k - 1))) by lia. done.
    + assert (top <= 2 ^ (k - 1)) as Hbig by (subst top; apply Z.pow_le_mono_r; lia).
      destruct (Z.ltb_spec (Z.abs d * 2 ^ (k - 1)) top) as [Hlt|_]; [|done].
      nia.
Qed.

Section Loop.
Variable fn : W -> result T E * W.
Variables (maxA d : Z) (b : bool).
Variable cb : option (Z -> E -> W -> result unit E * W).




(** The loop along a given course of the operation. When the attempts
    from [attempt] on fail with [errs] and the call after them settles as
    [fin], a success or the failure of attempt [maxA], the loop makes
    exactly these calls, in these worlds, and completes with what the last
    call gave. *)
Lemma retry_loop_course errs fuel attempt lastError w wk (fin : result T E) w' :
  attemptsFail fn cb attempt w errs wk ->
  fn wk = (fin, w') ->
  attempt + Z.of_nat (length errs) <= maxA ->
  (forall e, fin = Rejected e -> attempt + Z.of_nat (length errs) = maxA) ->
  (length errs < fuel)%nat ->
  retry_loop fn maxA d b cb fuel attempt lastError w
  = Some (match fin with
          | Resolved v => Returned v
          | Rejected e => Threw (Raised e)
          end, w',
          failedRounds (bool_decide (is_Some cb)) (currentDelay b d) attempt errs
            ++ [Invoke fin]).
Proof.
  revert fuel attempt lastError w.
  induction errs as [|e errs IH]; intros fuel attempt lastError w Hfail Hfin Hle Hlast Hfuel;
    (destruct fuel as [|fuel]; [cbn in Hfuel; lia|]); cbn [retry_loop];
    cbn [length] in *.
  - cbn in Hfail. subst wk.
    destruct (Z.leb_spec attempt maxA) as [_|?]; [|lia]. rewrite Hfin.
    destruct fin as [v|e]; [done|].
    specialize (Hlast e eq_refl).
    destruct (Z.eqb_spec attempt maxA) as [_|?]; [done|lia].
  - destruct Hfail as (w1 & w2 & Hfn & Hcb & Hrest).
    destruct (Z.leb_spec attempt maxA) as [_|?]; [|lia]. rewrite Hfn.
    destruct (Z.eqb_spec attempt maxA) as [?|_]; [lia|].
    specialize (IH fuel (attempt + 1) (Raised e)).
    unfold callbackReturns in Hcb. destruct cb as [callback|] eqn:Hsup.
    + rewrite Hcb. rewrite (IH w2 Hrest Hfin); [|lia|intros e' He'; specialize (Hlast e' He'); lia|lia].
      cbn [after failedRounds]. rewrite bool_decide_eq_true_2 by eauto. done.
    + subst w2. rewrite (IH w1 Hrest Hfin); [|lia|intros e' He'; specialize (Hlast e' He'); lia|lia].
      cbn [after failedRounds]. rewrite bool_decide_eq_false_2 by (intros [? [=]]). done.
Qed.

End Loop.



(** [retry] along a given course of the operation, with the waits as the
    code computes them. *)
Lemma retry_course fn (options : RetryOptions W E) w errs wk (fin : result T E) w' :
  attemptsFail fn (onRetry options) 1 w errs wk ->
  fn wk = (fin, w') ->
  1 + Z.of_nat (length errs) <= default 3 (maxAttempts options) ->
  (forall e, fin = Rejected e -> 1 + Z.of_nat (length errs) = default 3 (maxAttempts options)) ->
  retry fn options w
  = Some (match fin with
          | Resolved v => Returned v
          | Rejected e => Threw (Raised e)
          end, w',
          failedRounds (bool_decide (is_Some (onRetry options)))
            (currentDelay (default true (backoff options)) (default 1000 (delay options)))
            1 errs
            ++ [Invoke fin]).
Proof.
  intros Hfail Hfin Hle Hlast. unfold retry.
  apply (retry_loop_course fn _ _ _ _ errs _ 1 Undefined w wk fin w'); [done..|lia].
Qed.

(** On an integer [maxAttempts] the loop on numbers is the loop on
    integers. *)
Lemma retryNumber_loop_integer fn (maxA d : Z) b cb fuel attempt lastError w :
  retryNumber_loop fn (inject_Z maxA) d b cb fuel attempt lastError w
  = retry_loop fn maxA d b cb fuel attempt lastError w.
Proof.
  revert attempt lastError w.
  induction fuel as [|fuel IH]; intros attempt lastError w; [done|].
  cbn [retryNumber_loop retry_loop].
  assert (Qle_bool (inject_Z attempt) (inject_Z maxA) = (attempt <=? maxA)) as ->.
  { unfold Qle_bool, inject_Z. cbn. by rewrite !Z.mul_1_r. }
  assert (Qeq_bool (inject_Z attempt) (inject_Z maxA) = (attempt =? maxA)) as ->.
  { unfold Qeq_bool, inject_Z. cbn. rewrite !Z.mul_1_r.
    destruct (Z.eqb_spec attempt maxA) as [->|Hne].
    - destruct (Z.eq_dec maxA maxA); [done|congruence].
    - destruct (Z.eq_dec attempt maxA); [congruence|done]. }
  destruct (attempt <=? maxA); [|done].
  destruct (fn w) as [[v|error] w1]; [done|].
  destruct (attempt =? maxA); [done|].
  destruct cb as [callback|].
  - destruct (callback attempt error w1) as [[[]|x] w2]; [|done]. by rewrite IH.
  - by rewrite IH.
Qed.

(** [retry] is the function on numbers at the integer that [maxAttempts]
    is, the default 3 included. *)
Lemma retryNumber_integer fn (options : RetryOptions W E) w :
  retryNumber fn (inject_Z (default 3 (maxAttempts options))) options w
  = retry fn options w.
Proof.
  unfold retryNumber, retry. rewrite Qfloor_Z. apply retryNumber_loop_integer.
Qed.


(** C10. With [maxAttempts <= 0] the loop body is never entered: the
    operation is not called, nothing else happens, and [retry] throws the
    unassigned [lastError], which is [undefined] and not an error object. *)
Theorem retry_no_attempts fn (options : RetryOptions W E) w :
  default 3 (maxAttempts options) <= 0 ->
  retry fn options w = Some (Threw Undefined, w, []).
Proof.
  intros Hmax. unfold retry. cbn [retry_loop].
  destruct (Z.leb_spec 1 (default 3 (maxAttempts options))); [lia|done].
Qed.
End RetryFacts.


Example retry_flaky :
  retry flaky noOptions 0%nat
  = Some (Returned 2%nat, 3%nat,
          [Invoke (Rejected "timeout"); Sleep (Finite 1000);
           Invoke (Rejected "timeout"); Sleep (Finite 2000);
           Invoke (Resolved 2%nat)]).
Proof. reflexivity. Qed.

(** The wait asked for after attempt 1015 of a delay of 1000 is still a
    number; after attempt 1016 it is infinite. *)
Example wait_overflows :
  currentDelay true 1000 1015 = Finite (1000 * 2 ^ 1014)
  /\ currentDelay true 1000 1016 = Infinity
  /\ currentDelay true 0 1025 = NaN.
Proof. repeat split; vm_compute; reflexivity. Qed.



Lemma retry_no_attempts_witness :
  retry flaky {| maxAttempts := Some 0; delay := None; backoff := None; onRetry := None |} 0%nat
  = Some (Threw Undefined, 0%nat, []).
Proof.
  apply (retry_no_attempts flaky
           {| maxAttempts := Some 0; delay := None; backoff := None; onRetry := None |} 0%nat).
  cbn. lia.
Defined.

(** ** Circuit breaker *)

Section BreakerFacts.
Import CircuitBreaker.
Context {W T E : Type} (now : W -> Z).
Implicit Types (cb : t) (fn : W -> result T E * W) (w : W)
  (calls : list ((W -> result T E * W) * W)).

(** The configuration never changes. *)
Lemma fire_config cb l cb' :
  fire cb l = Some cb' ->
  failureThreshold cb' = failureThreshold cb /\ resetTimeout cb' = resetTimeout cb.
Proof.
  destruct l as [t| |t]; cbn; [|by intros [= <-]..].
  unfold guard. destruct (state cb); [by intros [= <-]| |by intros [= <-]].
  case_match; [by intros [= <-]|done].
Qed.


Lemma fire_tripped cb l cb' : fire cb l = Some cb' -> tripped cb -> tripped cb'.
Proof.
  unfold tripped. destruct l as [t| |t]; cbn.
  - unfold guard. destruct (state cb) eqn:Hst.
    + intros [= <-] _ Hne. congruence.
    + case_match; [|done]. intros [= <-] Hinv _. cbn. apply Hinv. done.
    + intros [= <-] Hinv _. apply Hinv. done.
  - intros [= <-] _. cbn. intros Hne. by destruct Hne.
  - intros [= <-] Hinv. cbn.
    destruct (Z.leb_spec (failureThreshold cb) (failures cb + 1)); [lia|].
    intros Hst. specialize (Hinv Hst). lia.
Qed.

Lemma run_tripped ls cb : tripped cb -> tripped (run cb ls).
Proof.
  revert cb. induction ls as [|l ls IH]; intros cb Hinv; [done|].
  cbn [run]. apply IH. destruct (fire cb l) as [cb'|] eqn:Hfire; cbn; [|done].
  by eapply fire_tripped.
Qed.

(** [HALF_OPEN] is entered by the guard only, from [OPEN], strictly after
    the timeout. *)
Lemma fire_half_open cb l cb' :
  fire cb l = Some cb' -> state cb' = HALF_OPEN -> state cb <> HALF_OPEN ->
  exists t, l = Enter t /\ state cb = OPEN /\ resetTimeout cb < t - lastFailureTime cb.
Proof.
  destruct l as [t| |t]; cbn.
  - unfold guard. destruct (state cb) eqn:Hst; [intros [= <-]; congruence| |intros [= <-]; congruence].
    destruct (Z.ltb_spec (resetTimeout cb) (t - lastFailureTime cb)); [|done].
    intros _ _ _. by exists t.
  - intros [= <-]. done.
  - intros [= <-]. cbn. case_match; [done|]. intros; congruence.
Qed.

(** A call is an [Enter] and, when let through, a [Succeed] or a [Fail]. *)
Lemma execute_run cb fn w :
  exists ls, breaker (execute now cb fn w) = run cb ls.
Proof.
  unfold execute. destruct (guard (now w) cb) as [cb1|] eqn:Hguard.
  - destruct (fn w) as [[v|e] w1].
    + exists [Enter (now w); Succeed]. cbn. by rewrite Hguard.
    + exists [Enter (now w); Fail (now w1)]. cbn. by rewrite Hguard.
  - by exists [].
Qed.


Lemma execute_settled cb fn w : settled cb -> settled (breaker (execute now cb fn w)).
Proof.
  intros [Hst Hinv]. split.
  2:{ destruct (execute_run cb fn w) as [ls ->]. by apply run_tripped. }
  unfold execute. destruct (guard (now w) cb) as [cb1|] eqn:Hguard; [|done].
  assert (tripped cb1) as Hinv1 by (by eapply (fire_tripped cb (Enter (now w)))).
  destruct (fire_config cb (Enter (now w)) cb1 Hguard) as [HT _].
  destruct (fn w) as [[v|e] w1]; cbn; [done|].
  destruct (Z.leb_spec (failureThreshold cb1) (failures cb1 + 1)); [done|].
  intros Hhalf. unfold tripped in Hinv1. rewrite Hhalf in Hinv1.
  specialize (Hinv1 ltac:(done)). lia.
Qed.

Lemma executeAll_settled calls cb : settled cb -> settled (executeAll now cb calls).
Proof.
  revert cb. induction calls as [|[fn w] calls IH]; intros cb Hcb; [done|].
  cbn [executeAll]. by apply IH, execute_settled.
Qed.

Lemma executeAll_config calls cb :
  failureThreshold (executeAll now cb calls) = failureThreshold cb
  /\ resetTimeout (executeAll now cb calls) = resetTimeout cb.
Proof.
  revert cb. induction calls as [|[fn w] calls IH]; intros cb; [done|].
  cbn [executeAll]. destruct (IH (breaker (execute now cb fn w))) as [-> ->].
  unfold execute. destruct (guard (now w) cb) as [cb1|] eqn:Hguard; [|done].
  destruct (fire_config cb (Enter (now w)) cb1 Hguard) as [<- <-].
  by destruct (fn w) as [[v|e] w1].
Qed.

Lemma executeAll_app calls1 calls2 cb :
  executeAll now cb (calls1 ++ calls2) = executeAll now (executeAll now cb calls1) calls2.
Proof.
  revert cb. induction calls1 as [|[fn w] calls1 IH]; intros cb; [done|].
  cbn [executeAll app]. apply IH.
Qed.

(** Below the threshold, failed calls keep a closed breaker closed and
    count up. *)
Lemma executeAll_below calls cb :
  state cb = CLOSED ->
  Forall fails calls ->
  failures cb + Z.of_nat (length calls) < failureThreshold cb ->
  state (executeAll now cb calls) = CLOSED
  /\ failures (executeAll now cb calls) = failures cb + Z.of_nat (length calls).
Proof.
  revert cb. induction calls as [|[fn w] calls IH]; intros cb Hst Hall Hlt.
  { cbn. split; [done|lia]. }
  apply Forall_cons in Hall as [[e He] Hall]. cbn in He.
  cbn [executeAll]. unfold execute, guard. rewrite Hst.
  destruct (fn w) as [r w1]. cbn in He. subst r. cbn [breaker].
  destruct (IH (onFailure (now w1) cb)) as [IH1 IH2].
  - cbn. destruct (Z.leb_spec (failureThreshold cb) (failures cb + 1)); [|done].
    cbn [length] in Hlt. lia.
  - done.
  - cbn. cbn [length] in Hlt. lia.
  - split; [done|]. rewrite IH2. cbn. cbn [length]. lia.
Qed.

(** C1. Let a closed breaker with no recorded failure (a new one, or one
    after a success) have threshold [T >= 1]. After exactly [T] calls in a
    row whose operation fails, and not before, [getState()] is [OPEN] and
    [lastFailureTime] is the time of the last failure. From there a call
    made when at most [resetTimeout] has passed since that failure throws
    the circuit-open error, leaves breaker and world untouched and does
    not call the operation; a call made when more than [resetTimeout] has
    passed moves the breaker to [HALF_OPEN] (the guard hands over a breaker
    whose [getState()] is [HALF_OPEN], with the counter and the time of the
    last failure as they were, and that is the state while the operation is
    pending), calls the operation once, and when that call succeeds returns
    its value with the breaker [CLOSED] and [failures = 0]. *)
Theorem breaker_trips_and_recovers cb calls :
  state cb = CLOSED ->
  failures cb = 0 ->
  1 <= failureThreshold cb ->
  Z.of_nat (length calls) = failureThreshold cb ->
  Forall fails calls ->
  let cb' := executeAll now cb calls in
  getState cb' = OPEN
  /\ (forall done rest,
        calls = done ++ rest -> rest <> [] -> getState (executeAll now cb done) = CLOSED)
  /\ (forall fn w, last calls = Some (fn, w) -> lastFailureTime cb' = now (fn w).2)
  /\ (forall fn w,
        now w - lastFailureTime cb' <= resetTimeout cb' ->
        execute now cb' fn w
        = {| completed := Threw (NewError "Circuit breaker is OPEN");
             breaker := cb'; world := w; trace := [] |})
  /\ (forall fn w,
        resetTimeout cb' < now w - lastFailureTime cb' ->
        guard (now w) cb'
        = Some {| failures := failures cb';
                  lastFailureTime := lastFailureTime cb';
                  state := HALF_OPEN;
                  failureThreshold := failureThreshold cb';
                  resetTimeout := resetTimeout cb' |}
        /\ getState (run cb' [Enter (now w)]) = HALF_OPEN
        /\ trace (execute now cb' fn w) = [Invoke (fn w).1]
        /\ forall v, (fn w).1 = Resolved v ->
             completed (execute now cb' fn w) = Returned v
             /\ getState (breaker (execute now cb' fn w)) = CLOSED
             /\ failures (breaker (execute now cb' fn w)) = 0).
Proof.
  intros Hst Hzero HT Hlen Hall cb'.
  assert (forall done rest,
            calls = done ++ rest -> rest <> [] -> getState (executeAll now cb done) = CLOSED)
    as Hbefore.
  { intros done rest Heq Hrest. rewrite Heq in Hall, Hlen.
    apply Forall_app in Hall as [Hdone _]. rewrite length_app in Hlen.
    destruct rest as [|call rest]; [done|]. cbn [length] in Hlen.
    apply (executeAll_below done cb Hst Hdone). lia. }
  destruct calls as [|call calls _] using rev_ind; [cbn in Hlen; lia|].
  destruct call as [fn0 w0].
  apply Forall_app in Hall as [Hinit [[e He] _]%Forall_cons]. cbn in He.
  rewrite length_app in Hlen. cbn [length] in Hlen.
  destruct (executeAll_below calls cb Hst Hinit) as [Hst1 Hf1]; [lia|].
  assert (cb' = onFailure (now (fn0 w0).2) (executeAll now cb calls)) as Hcb'.
  { subst cb'. rewrite executeAll_app. cbn [executeAll]. unfold execute, guard.
    rewrite Hst1. destruct (fn0 w0) as [r w1]. cbn in He. by subst r. }
  destruct (executeAll_config calls cb) as [HTc HRc].
  assert (state cb' = OPEN) as Hopen.
  { rewrite Hcb'. cbn. rewrite HTc, Hf1.
    destruct (Z.leb_spec (failureThreshold cb) (failures cb + Z.of_nat (length calls) + 1));
      [done|lia]. }
  split; [exact Hopen|]. split; [exact Hbefore|]. split.
  { intros fn w Hlast. rewrite last_snoc in Hlast. injection Hlast as <- <-.
    by rewrite Hcb'. }
  split.
  - intros fn w Hearly. unfold execute, guard. rewrite Hopen.
    destruct (Z.ltb_spec (resetTimeout cb') (now w - lastFailureTime cb')); [lia|done].
  - intros fn w Hlate.
    assert (guard (now w) cb' = Some (setState HALF_OPEN cb')) as Hguard.
    { unfold guard. rewrite Hopen.
      destruct (Z.ltb_spec (resetTimeout cb') (now w - lastFailureTime cb')); [done|lia]. }
    split; [exact Hguard|]. split; [cbn [run fire]; by rewrite Hguard|].
    unfold execute. rewrite Hguard.
    destruct (fn w) as [[v|e'] w1]; cbn; (split; [done|]); intros v' [=]. by subst.
Qed.

(** C8. In every state reached from a new breaker by any sequence of
    calls of [execute], [OPEN] implies [failures >= failureThreshold], and
    the guard of a further call moves the breaker to [HALF_OPEN] only from
    [OPEN] and only when more than [resetTimeout] has passed since
    [lastFailureTime]. *)
Theorem breaker_invariant (threshold timeout : option Z) calls :
  (getState (executeAll now (new threshold timeout) calls) = OPEN ->
   failureThreshold (executeAll now (new threshold timeout) calls)
   <= failures (executeAll now (new threshold timeout) calls))
  /\ (forall t cb1,
        guard t (executeAll now (new threshold timeout) calls) = Some cb1 ->
        state cb1 = HALF_OPEN ->
        state (executeAll now (new threshold timeout) calls) = OPEN
        /\ resetTimeout (executeAll now (new threshold timeout) calls)
           < t - lastFailureTime (executeAll now (new threshold timeout) calls)).
Proof.
  assert (settled (executeAll now (new threshold timeout) calls)) as [Hst Hinv].
  { apply executeAll_settled. split; [done|]. intros Hne. by destruct Hne. }
  split.
  - unfold getState. intros Hopen. apply Hinv. congruence.
  - intros t cb1 Hguard Hhalf.
    destruct (fire_half_open _ (Enter t) cb1 Hguard Hhalf Hst) as (t' & [= <-] & Hopen & Hlt).
    done.
Qed.
End BreakerFacts.


Example four_failures_closed :
  CircuitBreaker.getState
    (CircuitBreaker.executeAll id (CircuitBreaker.new None None) (replicate 4 (down, 100)))
  = CircuitBreaker.CLOSED.
Proof. reflexivity. Qed.

Example five_failures_open :
  tripped_breaker
  = {| CircuitBreaker.failures := 5; CircuitBreaker.lastFailureTime := 101;
       CircuitBreaker.state := CircuitBreaker.OPEN;
       CircuitBreaker.failureThreshold := 5; CircuitBreaker.resetTimeout := 60000 |}.
Proof. reflexivity. Qed.

(** Exactly [resetTimeout] after the last failure the breaker still refuses;
    one millisecond later it lets the call through. *)
Example open_at_the_timeout :
  CircuitBreaker.execute id tripped_breaker up 60101
  = {| CircuitBreaker.completed := Threw (NewError "Circuit breaker is OPEN");
       CircuitBreaker.breaker := tripped_breaker;
       CircuitBreaker.world := 60101;
       CircuitBreaker.trace := [] |}.
Proof. reflexivity. Qed.

Example closed_after_the_timeout :
  CircuitBreaker.execute id tripped_breaker up 60102
  = {| CircuitBreaker.completed := Returned 7%nat;
       CircuitBreaker.breaker :=
         {| CircuitBreaker.failures := 0; CircuitBreaker.lastFailureTime := 101;
            CircuitBreaker.state := CircuitBreaker.CLOSED;
            CircuitBreaker.failureThreshold := 5; CircuitBreaker.resetTimeout := 60000 |};
       CircuitBreaker.world := 60103;
       CircuitBreaker.trace := [Invoke (Resolved 7%nat)] |}.
Proof. reflexivity. Qed.

Lemma breaker_trips_and_recovers_witness :
  let cb' := CircuitBreaker.executeAll id (CircuitBreaker.new None None) five_failures in
  CircuitBreaker.getState cb' = CircuitBreaker.OPEN
  /\ (forall done rest,
        five_failures = done ++ rest -> rest <> [] ->
        CircuitBreaker.getState
          (CircuitBreaker.executeAll id (CircuitBreaker.new None None) done)
        = CircuitBreaker.CLOSED)
  /\ (forall fn w, last five_failures = Some (fn, w) ->
        CircuitBreaker.lastFailureTime cb' = id (fn w).2)
  /\ (forall (fn : Z -> result nat string * Z) w,
        id w - CircuitBreaker.lastFailureTime cb' <= CircuitBreaker.resetTimeout cb' ->
        CircuitBreaker.execute id cb' fn w
        = {| CircuitBreaker.completed := Threw (NewError "Circuit breaker is OPEN");
             CircuitBreaker.breaker := cb'; CircuitBreaker.world := w;
             CircuitBreaker.trace := [] |})
  /\ (forall (fn : Z -> result nat string * Z) w,
        CircuitBreaker.resetTimeout cb' < id w - CircuitBreaker.lastFailureTime cb' ->
        CircuitBreaker.guard (id w) cb'
        = Some {| CircuitBreaker.failures := CircuitBreaker.failures cb';
                  CircuitBreaker.lastFailureTime := CircuitBreaker.lastFailureTime cb';
                  CircuitBreaker.state := CircuitBreaker.HALF_OPEN;
                  CircuitBreaker.failureThreshold := CircuitBreaker.failureThreshold cb';
                  CircuitBreaker.resetTimeout := CircuitBreaker.resetTimeout cb' |}
        /\ CircuitBreaker.getState (CircuitBreaker.run cb' [CircuitBreaker.Enter (id w)])
           = CircuitBreaker.HALF_OPEN
        /\ CircuitBreaker.trace (CircuitBreaker.execute id cb' fn w) = [Invoke (fn w).1]
        /\ forall v, (fn w).1 = Resolved v ->
             CircuitBreaker.completed (CircuitBreaker.execute id cb' fn w) = Returned v
             /\ CircuitBreaker.getState
                  (CircuitBreaker.breaker (CircuitBreaker.execute id cb' fn w))
                = CircuitBreaker.CLOSED
             /\ CircuitBreaker.failures
                  (CircuitBreaker.breaker (CircuitBreaker.execute id cb' fn w)) = 0).
Proof.
  apply (breaker_trips_and_recovers id (CircuitBreaker.new None None) five_failures).
  - reflexivity.
  - reflexivity.
  - cbn. lia.
  - reflexivity.
  - unfold five_failures. cbn. repeat constructor; by exists "fetch failed"%string.
Defined.

(** The only breakers the module hands out are made with threshold 5 and
    timeout 60000. *)
Lemma getCircuitBreaker_first key (circuitBreakers : gmap string CircuitBreaker.t) :
  circuitBreakers !! key = None ->
  let '(cb, registry) := getCircuitBreaker key circuitBreakers in
  CircuitBreaker.state cb = CircuitBreaker.CLOSED
  /\ CircuitBreaker.failures cb = 0
  /\ CircuitBreaker.failureThreshold cb = 5
  /\ CircuitBreaker.resetTimeout cb = 60000
  /\ registry !! key = Some cb.
Proof.
  intros Hnew. unfold getCircuitBreaker. rewrite Hnew.
  repeat split. apply lookup_insert_eq.
Qed.

Lemma getCircuitBreaker_again key (circuitBreakers : gmap string CircuitBreaker.t) cb :
  circuitBreakers !! key = Some cb ->
  getCircuitBreaker key circuitBreakers = (cb, circuitBreakers).
Proof. intros Hold. unfold getCircuitBreaker. by rewrite Hold. Qed.

Example lower_case : toLowerCase "Invalid INPUT: e-mail @ 500" = "invalid input: e-mail @ 500"%string.
Proof. reflexivity. Qed.

(** ** Error classifier *)

Lemma append_nil (s : string) : ("" +:+ s)%string = s.
Proof. reflexivity. Qed.

Lemma append_cons (c : ascii) (s1 s2 : string) :
  String c s1 +:+ s2 = String c (s1 +:+ s2).
Proof. reflexivity. Qed.

Lemma string_app_assoc (a b c : string) : (a +:+ b) +:+ c = a +:+ (b +:+ c).
Proof. induction a as [|x a IH]; [done|]. rewrite !append_cons. by rewrite IH. Qed.

Lemma length_append (a b : string) :
  String.length (a +:+ b) = (String.length a + String.length b)%nat.
Proof. induction a as [|c a IH]; [done|]. rewrite append_cons. cbn. by rewrite IH. Qed.

Lemma prefix_append (sub s : string) :
  String.prefix sub s = true <-> exists post, s = sub +:+ post.
Proof.
  revert s. induction sub as [|a sub IH]; intros s.
  - destruct s as [|b s]; cbn; (split; [|done]); intros _; eexists; reflexivity.
  - destruct s as [|b s]; cbn [String.prefix].
    { split; [done|]. intros [post Hpost]. by rewrite append_cons in Hpost. }
    destruct (Ascii.ascii_dec a b) as [->|Hne].
    + rewrite IH. split; intros [post Hpost]; exists post;
        rewrite append_cons in *; congruence.
    + split; [done|]. intros [post Hpost]. rewrite append_cons in Hpost. congruence.
Qed.

(** [includes] is the substring test. *)
Lemma includes_occurs (s sub : string) : includes s sub = true <-> occurs sub s.
Proof.
  unfold occurs. induction s as [|c s IH]; cbn [includes].
  - rewrite orb_false_r, prefix_append. split.
    + intros [post ->]. by exists ""%string, post.
    + intros (pre & post & Heq). destruct pre as [|? ?].
      * rewrite append_nil in Heq. by exists post.
      * by rewrite append_cons in Heq.
  - rewrite orb_true_iff, prefix_append, IH. split.
    + intros [[post ->]|(pre & post & ->)].
      * by exists ""%string, post.
      * by exists (String c pre), post.
    + intros (pre & post & Heq). destruct pre as [|c' pre].
      * left. rewrite append_nil in Heq. by exists post.
      * right. rewrite append_cons in Heq. injection Heq as -> ->. by exists pre, post.
Qed.

Lemma includes_false (s sub : string) : includes s sub = false <-> ~ occurs sub s.
Proof. rewrite <- includes_occurs. by destruct (includes s sub). Qed.

(** Closes one case of the classification: the category is the expected one,
    or the assumptions about the keywords contradict each other. *)
Ltac settle := cbn; repeat split; intros; first [reflexivity | exfalso; tauto].

(** C9. [classifyError] looks in the lower-cased message for the network
    keywords first, then for the validation keywords, then for the server
    keywords; the first group with a keyword that occurs gives the category,
    and the category is [unknown] when none occurs. The four messages of the
    specification get the categories it lists, and a message with keywords
    of several groups gets the earliest one. *)
Theorem classifyError_first_match :
  (forall error,
     let m := toLowerCase (message error) in
     let net := occurs "fetch" m \/ occurs "network" m \/ occurs "timeout" m in
     let val := occurs "validation" m \/ occurs "invalid" m in
     let srv := occurs "500" m \/ occurs "server" m in
     (net -> classifyError error = network)
     /\ (~ net -> val -> classifyError error = validation)
     /\ (~ net -> ~ val -> srv -> classifyError error = server)
     /\ (~ net -> ~ val -> ~ srv -> classifyError error = unknown))
  /\ classifyError {| message := "fetch failed: timeout" |} = network
  /\ classifyError {| message := "Invalid input: email" |} = validation
  /\ classifyError {| message := "500 Internal" |} = server
  /\ classifyError {| message := "whatever" |} = unknown
  /\ classifyError {| message := "Invalid server response (500) after network TIMEOUT" |}
     = network
  /\ classifyError {| message := "Server said: validation failed" |} = validation.
Proof.
  split; [|repeat split; reflexivity].
  intros error m net val srv. subst net val srv. unfold classifyError. fold m.
  destruct (includes m "fetch") eqn:H1, (includes m "network") eqn:H2,
    (includes m "timeout") eqn:H3, (includes m "validation") eqn:H4,
    (includes m "invalid") eqn:H5, (includes m "500") eqn:H6,
    (includes m "server") eqn:H7;
    first [apply includes_occurs in H1 | apply includes_false in H1];
    first [apply includes_occurs in H2 | apply includes_false in H2];
    first [apply includes_occurs in H3 | apply includes_false in H3];
    first [apply includes_occurs in H4 | apply includes_false in H4];
    first [apply includes_occurs in H5 | apply includes_false in H5];
    first [apply includes_occurs in H6 | apply includes_false in H6];
    first [apply includes_occurs in H7 | apply includes_false in H7];
    settle.
Qed.

(** ** Fallback cache *)

Section FallbackFacts.
Context {W RequestInit Data E : Type}.
Variable fetch : string -> RequestInit -> W -> result (Response.t Data E) E * W.
Implicit Types (url : string) (options : RequestInit) (cache : gmap string Data) (w : W).

Lemma truthy_Some key : key <> ""%string -> truthy (Some key) = Some key.
Proof. by destruct key. Qed.

Lemma useFallback_hit failure key cache w data :
  key <> ""%string -> cache !! key = Some data ->
  useFallback failure (Some key) cache w
  = {| answer := Returned data; fallbackCache := cache; after_fetch := w |} :> fetched W Data E.
Proof. intros Hkey Hhit. unfold useFallback. by rewrite truthy_Some, Hhit. Qed.

Lemma useFallback_miss failure fallbackKey cache w :
  (fallbackKey = None \/ fallbackKey = Some ""%string
   \/ exists key, fallbackKey = Some key /\ cache !! key = None) ->
  useFallback failure fallbackKey cache w
  = {| answer := Threw failure; fallbackCache := cache; after_fetch := w |} :> fetched W Data E.
Proof.
  unfold useFallback. intros [->|[->|(key & -> & Hmiss)]]; [done..|].
  destruct key; [done|]. cbn. by rewrite Hmiss.
Qed.

(** What the [catch] block receives is the failure of the live call. *)
Lemma fetchWithFallback_failure url options fallbackKey cache w failure :
  liveFailure fetch url options w failure ->
  fetchWithFallback fetch url options fallbackKey cache w
  = useFallback failure fallbackKey cache (fetch url options w).2.
Proof.
  unfold liveFailure, fetchWithFallback.
  destruct (fetch url options w) as [[response|e] w1]; [|by intros ->].
  destruct (Response.ok response); cbn; [|by intros ->].
  destruct (Response.json response); [done|by intros ->].
Qed.

(** C7, as the code has it. For every url and every [fallbackKey] that is
    supplied and is not the empty string: when the live call succeeds, the
    parsed payload is stored in the fallback cache under the key and
    returned; when the live call fails (the network, a status that is not a
    success, or the body) and the cache has an entry for the key, the cached
    payload is returned and nothing is thrown. When the live call fails and
    the cache has no entry for the key, or no key was supplied, or the key is
    the empty string, the failure is thrown again. With no key or with the
    empty string a success returns the payload and leaves the cache as it
    was. *)
Theorem fetchWithFallback_truthy_key url options fallbackKey cache w :
  (forall key data,
     fallbackKey = Some key -> key <> ""%string ->
     liveSuccess fetch url options w data ->
     answer (fetchWithFallback fetch url options fallbackKey cache w) = Returned data
     /\ fallbackCache (fetchWithFallback fetch url options fallbackKey cache w)
        = <[key := data]> cache)
  /\ (forall key failure data,
        fallbackKey = Some key -> key <> ""%string ->
        liveFailure fetch url options w failure ->
        cache !! key = Some data ->
        answer (fetchWithFallback fetch url options fallbackKey cache w) = Returned data
        /\ fallbackCache (fetchWithFallback fetch url options fallbackKey cache w) = cache)
  /\ (forall failure,
        liveFailure fetch url options w failure ->
        (fallbackKey = None \/ fallbackKey = Some ""%string
         \/ exists key, fallbackKey = Some key /\ cache !! key = None) ->
        answer (fetchWithFallback fetch url options fallbackKey cache w) = Threw failure
        /\ fallbackCache (fetchWithFallback fetch url options fallbackKey cache w) = cache)
  /\ (forall data,
        liveSuccess fetch url options w data ->
        fallbackKey = None \/ fallbackKey = Some ""%string ->
        answer (fetchWithFallback fetch url options fallbackKey cache w) = Returned data
        /\ fallbackCache (fetchWithFallback fetch url options fallbackKey cache w) = cache).
Proof.
  split; [|split; [|split]].
  - intros key data -> Hkey (response & w1 & Hfetch & Hok & Hjson).
    unfold fetchWithFallback. rewrite Hfetch, Hok, Hjson. cbn [negb].
    by rewrite truthy_Some.
  - intros key failure data -> Hkey Hfail Hhit.
    rewrite (fetchWithFallback_failure _ _ _ _ _ _ Hfail).
    by rewrite (useFallback_hit _ _ _ _ data).
  - intros failure Hfail Hmiss.
    rewrite (fetchWithFallback_failure _ _ _ _ _ _ Hfail).
    by rewrite useFallback_miss.
  - intros data (response & w1 & Hfetch & Hok & Hjson) Hkey.
    unfold fetchWithFallback. rewrite Hfetch, Hok, Hjson. by destruct Hkey as [->| ->].
Qed.
End FallbackFacts.

(** The scenario of the specification: a first successful call caches the
    payload under ["k"], and a later call that fails returns it. *)
Example fallback_after_success :
  let first := fetchWithFallback sampleFetch "https://x/data" () (Some "k"%string) ∅ true in
  let second :=
    fetchWithFallback sampleFetch "https://x/data" () (Some "k"%string)
                      (fallbackCache first) false in
  answer first = Returned 42%nat
  /\ fallbackCache first !! "k"%string = Some 42%nat
  /\ answer second = Returned 42%nat.
Proof. cbn. by rewrite lookup_insert_eq. Qed.

(** Against the specification: the empty string is a key that was
    supplied, the call succeeds, and nothing is stored under it. *)
Lemma fetchWithFallback_empty_key :
  liveSuccess sampleFetch "https://x/data" () true 42%nat
  /\ answer (fetchWithFallback sampleFetch "https://x/data" () (Some ""%string) ∅ true)
     = Returned 42%nat
  /\ fallbackCache (fetchWithFallback sampleFetch "https://x/data" () (Some ""%string) ∅ true)
       !! ""%string <> Some 42%nat.
Proof.
  split; [by eexists _, _|]. split; [done|]. cbn. by rewrite lookup_empty.
Qed.

(** ** Rate limiter *)

Section RateLimitFacts.
Implicit Types (ip : string) (store : gmap string RateLimitRecord).

Lemma checkRateLimit_fresh ip now store :
  startsWindow ip now store ->
  checkRateLimit ip now store
  = (true, <[ip := {| count := 1; resetTime := now + 60000 |}]> store).
Proof.
  unfold checkRateLimit. intros [->|(record & -> & Hexp)]; [done|].
  destruct (Z.ltb_spec (resetTime record) now); [done|lia].
Qed.

Lemma checkRateLimit_full ip now store record :
  store !! ip = Some record -> now <= resetTime record -> 10 <= count record ->
  checkRateLimit ip now store = (false, store).
Proof.
  unfold checkRateLimit. intros -> Hwin Hfull.
  destruct (Z.ltb_spec (resetTime record) now); [lia|].
  destruct (Z.leb_spec 10 (count record)); [done|lia].
Qed.

Lemma checkRateLimit_counts ip now store record :
  store !! ip = Some record -> now <= resetTime record -> count record < 10 ->
  checkRateLimit ip now store
  = (true, <[ip := {| count := count record + 1; resetTime := resetTime record |}]> store).
Proof.
  unfold checkRateLimit. intros -> Hwin Hroom.
  destruct (Z.ltb_spec (resetTime record) now); [lia|].
  destruct (Z.leb_spec 10 (count record)); [lia|done].
Qed.

(** A request of one client leaves the records of the others alone. *)
Lemma checkRateLimit_other ip ip' now store :
  ip <> ip' -> (checkRateLimit ip' now store).2 !! ip = store !! ip.
Proof.
  intros Hne. unfold checkRateLimit.
  destruct (store !! ip') as [record|]; [|by cbn; rewrite lookup_insert_ne].
  destruct (resetTime record <? now); [by cbn; rewrite lookup_insert_ne|].
  destruct (10 <=? count record); [done|by cbn; rewrite lookup_insert_ne].
Qed.

(** The periodic sweep keeps every record whose window is still open. *)
Lemma cleanup_keeps ip now store record :
  store !! ip = Some record -> now <= resetTime record ->
  cleanup now store !! ip = Some record.
Proof. intros Hin Hwin. unfold cleanup. by apply map_lookup_filter_Some_2. Qed.

(** Inside a window that holds [c] requests, the next requests are admitted
    until the count is 10 and rejected from then on. *)
Lemma checkAll_window ip (reset c : Z) times store :
  store !! ip = Some {| count := c; resetTime := reset |} ->
  Forall (fun now => now <= reset) times ->
  1 <= c <= 10 ->
  (checkAll ip times store).1
  = replicate (Nat.min (Z.to_nat (10 - c)) (length times)) true
    ++ replicate (length times - Z.to_nat (10 - c)) false.
Proof.
  revert c store. induction times as [|now times IH]; intros c store Hrec Hwin Hc.
  { cbn. by rewrite Nat.min_0_r. }
  apply Forall_cons in Hwin as [Hnow Hwin]. cbn [checkAll].
  destruct (Z.eq_dec c 10) as [->|Hlt].
  - rewrite (checkRateLimit_full ip now store _ Hrec) by (cbn; lia).
    specialize (IH 10 store Hrec Hwin ltac:(lia)).
    destruct (checkAll ip times store) as [decisions store2]. cbn [fst] in *.
    rewrite IH. change (Z.to_nat (10 - 10)) with 0%nat.
    cbn [Nat.min length]. by rewrite !Nat.sub_0_r.
  - rewrite (checkRateLimit_counts ip now store _ Hrec) by (cbn; lia). cbn [count resetTime].
    specialize (IH (c + 1) (<[ip := {| count := c + 1; resetTime := reset |}]> store)).
    rewrite lookup_insert_eq in IH. specialize (IH eq_refl Hwin ltac:(lia)).
    destruct (checkAll ip times _) as [decisions store2]. cbn [fst] in *.
    rewrite IH. cbn [length].
    replace (Z.to_nat (10 - c)) with (S (Z.to_nat (10 - (c + 1)))) by lia.
    by rewrite <- Nat.succ_min_distr.
Qed.
End RateLimitFacts.

(** ** POST *)

Section PostFacts.
Variable isURL : string -> bool.
Implicit Types (request : NextRequest.t) (rt : Runtime) (srv : Server).

Ltac run_try :=
  unfold POST, tryBlock, mbind, Try_bind, mret, Try_ret, rateLimited, orThrow,
    existsSync, mkdirSync, appendFileSync.

(** A rejected request leaves the store as it was. *)
Lemma checkRateLimit_rejects ip now (store : gmap string RateLimitRecord) :
  (checkRateLimit ip now store).1 = false -> (checkRateLimit ip now store).2 = store.
Proof.
  unfold checkRateLimit. destruct (store !! ip) as [record|]; [|done].
  destruct (resetTime record <? now); [done|].
  by destruct (10 <=? count record).
Qed.

Lemma POST_rejected request rt srv :
  ~ admitted request rt srv ->
  POST isURL request rt srv = (tooManyRequests, srv).
Proof.
  unfold admitted. intros Hrej. apply not_true_is_false in Hrej.
  pose proof (checkRateLimit_rejects _ _ _ Hrej) as Hsame. run_try.
  destruct (checkRateLimit _ _ _) as [ok store]. cbn in Hrej, Hsame. subst.
  by destruct srv.
Qed.

Lemma POST_invalid request rt srv :
  admitted request rt srv -> invalidBody isURL request ->
  POST isURL request rt srv
  = (badRequest, {| rateLimitStore := counted request rt srv; disk := disk srv |}).
Proof.
  unfold admitted, invalidBody, counted. intros Hok Hbad. run_try.
  destruct (checkRateLimit _ _ _) as [ok store]. cbn in Hok. subst ok. cbn.
  destruct (NextRequest.json request) as [body|]; [|done]. by rewrite Hbad.
Qed.

Lemma POST_valid request rt srv body validatedData :
  admitted request rt srv ->
  NextRequest.json request = Some body ->
  ErrorLogSchema isURL body = Some validatedData ->
  persists rt srv ->
  POST isURL request rt srv
  = (succeeded,
     {| rateLimitStore := counted request rt srv;
        disk :=
          {| logDirExists := true;
             logFile :=
               logFile (disk srv)
               +:+ (stringifyErrorLog validatedData (clientIp request) (dateNowLogged rt)
                    +:+ String lineFeed "") |} |}).
Proof.
  unfold admitted, persists, counted. intros Hok Hjson Hparse [Hmkdir Happend]. run_try.
  destruct (checkRateLimit _ _ _) as [ok store]. cbn in Hok. subst ok. cbn.
  rewrite Hjson, Hparse. cbn. rewrite Happend.
  destruct (logDirExists (disk srv)) eqn:Hdir; cbn.
  - by rewrite Hdir.
  - by rewrite Hmkdir.
Qed.

Lemma POST_unpersisted request rt srv body validatedData :
  admitted request rt srv ->
  NextRequest.json request = Some body ->
  ErrorLogSchema isURL body = Some validatedData ->
  ~ persists rt srv ->
  (POST isURL request rt srv).1 = badRequest
  /\ logFile (disk (POST isURL request rt srv).2) = logFile (disk srv).
Proof.
  unfold admitted, persists. intros Hok Hjson Hparse Hfail. run_try.
  destruct (checkRateLimit _ _ _) as [ok store]. cbn in Hok. subst ok. cbn.
  rewrite Hjson, Hparse. cbn.
  destruct (logDirExists (disk srv)) eqn:Hdir; cbn.
  - rewrite Hdir. destruct (appendFileSyncFails rt); [done|]. exfalso. apply Hfail. done.
  - destruct (mkdirSyncFails rt) eqn:Hmk; [done|]. cbn.
    destruct (appendFileSyncFails rt); [done|]. exfalso. apply Hfail. done.
Qed.

(** Whatever happens, the status is one of 200, 400 and 429, and the log
    changes only together with a 200. *)
Lemma POST_statuses request rt srv :
  (NextResponse.status (POST isURL request rt srv).1 = 200
   \/ (NextResponse.status (POST isURL request rt srv).1 = 400
       /\ logFile (disk (POST isURL request rt srv).2) = logFile (disk srv))
   \/ (NextResponse.status (POST isURL request rt srv).1 = 429
       /\ logFile (disk (POST isURL request rt srv).2) = logFile (disk srv))).
Proof.
  assert (admitted request rt srv \/ ~ admitted request rt srv) as [Hok|Hrej].
  { unfold admitted. destruct (checkRateLimit _ _ _).1; [by left|by right]. }
  2:{ rewrite POST_rejected by done. right. right. done. }
  destruct (NextRequest.json request) as [body|] eqn:Hjson.
  2:{ rewrite POST_invalid; [right; left; done|done|]. unfold invalidBody. by rewrite Hjson. }
  destruct (ErrorLogSchema isURL body) as [validatedData|] eqn:Hparse.
  2:{ rewrite POST_invalid; [right; left; done|done|]. unfold invalidBody. by rewrite Hjson. }
  assert (persists rt srv \/ ~ persists rt srv) as [Hfs|Hfs].
  { unfold persists.
    destruct (logDirExists (disk srv)), (mkdirSyncFails rt), (appendFileSyncFails rt);
      first [by left | right; intros [Hmk Happ]; first [discriminate Happ | by specialize (Hmk eq_refl)]]. }
  - erewrite POST_valid by done. left. done.
  - destruct (POST_unpersisted _ _ _ _ _ Hok Hjson Hparse Hfs) as [-> ->]. right. left. done.
Qed.
End PostFacts.

(** ** The appended text is one line *)

Lemma lineFeeds_app (a b : string) : lineFeeds (a +:+ b) = (lineFeeds a + lineFeeds b)%nat.
Proof.
  induction a as [|c a IH]; [done|].
  rewrite append_cons. cbn [lineFeeds]. rewrite IH. lia.
Qed.

Lemma lineFeeds_escapeChar (c : ascii) : lineFeeds (escapeChar c) = 0%nat.
Proof. destruct c as [[] [] [] [] [] [] [] []]; reflexivity. Qed.

Lemma lineFeeds_quote (s : string) : lineFeeds (quote s) = 0%nat.
Proof.
  assert (lineFeeds (escape s) = 0%nat) as Hescape.
  { induction s as [|c s IH]; [done|].
    cbn [escape]. by rewrite lineFeeds_app, lineFeeds_escapeChar. }
  unfold quote. rewrite append_cons. cbn [lineFeeds].
  rewrite lineFeeds_app, Hescape. reflexivity.
Qed.

Lemma lineFeeds_uint (d : Decimal.uint) : lineFeeds (NilEmpty.string_of_uint d) = 0%nat.
Proof. induction d; cbn [NilEmpty.string_of_uint lineFeeds]; try rewrite decide_False by done; done. Qed.

Lemma lineFeeds_showNumber (n : Z) : lineFeeds (showNumber n) = 0%nat.
Proof.
  unfold showNumber, NilZero.string_of_int.
  destruct (Z.to_int n) as [d|d]; [|cbn [lineFeeds]; rewrite decide_False by done];
    unfold NilZero.string_of_uint; destruct d; try done; apply lineFeeds_uint.
Qed.

Lemma lineFeeds_concat (sep : string) (parts : list string) :
  lineFeeds sep = 0%nat ->
  Forall (fun part => lineFeeds part = 0%nat) parts ->
  lineFeeds (String.concat sep parts) = 0%nat.
Proof.
  intros Hsep Hparts. induction Hparts as [|part parts Hpart _ IH]; [done|].
  cbn [String.concat]. destruct parts as [|next parts]; [done|].
  change (lineFeeds (part +:+ (sep +:+ String.concat sep (next :: parts))) = 0%nat).
  rewrite !lineFeeds_app, Hpart, Hsep, IH. done.
Qed.

Lemma lineFeeds_stringifyObject (members : list (string * string)) :
  Forall (fun m => lineFeeds m.2 = 0%nat) members ->
  lineFeeds (stringifyObject members) = 0%nat.
Proof.
  intros Hall. unfold stringifyObject. rewrite !lineFeeds_app.
  rewrite lineFeeds_concat; [done|done|].
  apply Forall_fmap. eapply Forall_impl; [exact Hall|].
  intros [k v] Hv. cbn in *. rewrite !lineFeeds_app, lineFeeds_quote, Hv. done.
Qed.

Lemma lineFeeds_present {A : Type} key (render : A -> string) (v : option A) :
  (forall a, lineFeeds (render a) = 0%nat) ->
  Forall (fun m => lineFeeds m.2 = 0%nat) (present key render v).
Proof. intros Hrender. destruct v; repeat constructor. apply Hrender. Qed.

(** The text of a record never contains a line feed: the ones inside its
    strings are written as a backslash and the letter n. *)
Lemma lineFeeds_stringifyErrorLog v ip serverTimestamp :
  lineFeeds (stringifyErrorLog v ip serverTimestamp) = 0%nat.
Proof.
  apply lineFeeds_stringifyObject.
  repeat first
    [ apply Forall_app; split
    | apply lineFeeds_present; first [apply lineFeeds_quote | apply lineFeeds_showNumber]
    | apply Forall_cons; split; [first [apply lineFeeds_quote | apply lineFeeds_showNumber]|]
    | apply Forall_nil_2 ].
Qed.

(** ** A line of the log, read back *)















Section LogLine.
Variable isURL : string -> bool.




End LogLine.

(** ** The ingestion endpoint as a whole *)

(** C2. The limiter has a window of 60 seconds and a limit of 10. For every
    client key: a first request, or a request after the recorded
    [resetTime], is admitted and installs a record with [count = 1] and
    [resetTime = now + 60000]; a request that finds a record with
    [count >= 10] whose window is not over is rejected, the store is left
    as it is and [POST] answers 429; any other request is admitted and adds
    one to [count]. So of eleven requests of one key in one window the
    first ten are admitted and the eleventh is rejected. *)
Theorem rate_limiter_window :
  (forall ip now (store : gmap string RateLimitRecord),
     startsWindow ip now store ->
     checkRateLimit ip now store
     = (true, <[ip := {| count := 1; resetTime := now + 60 * 1000 |}]> store))
  /\ (forall ip now (store : gmap string RateLimitRecord) record,
        store !! ip = Some record -> now <= resetTime record -> 10 <= count record ->
        checkRateLimit ip now store = (false, store)
        /\ forall isURL request rt srv,
             clientIp request = ip -> dateNow rt = now -> rateLimitStore srv = store ->
             POST isURL request rt srv
             = ({| NextResponse.status := 429; NextResponse.success := false;
                   NextResponse.error := Some "Rate limit exceeded"%string |}, srv))
  /\ (forall ip now (store : gmap string RateLimitRecord) record,
        store !! ip = Some record -> now <= resetTime record -> count record < 10 ->
        checkRateLimit ip now store
        = (true,
           <[ip := {| count := count record + 1; resetTime := resetTime record |}]> store))
  /\ (forall ip t0 times (store : gmap string RateLimitRecord),
        startsWindow ip t0 store ->
        length times = 10%nat ->
        Forall (fun now => now <= t0 + 60 * 1000) times ->
        (checkAll ip (t0 :: times) store).1 = replicate 10 true ++ [false]).
Proof.
  split; [|split; [|split]].
  - intros ip now store Hstart. by apply checkRateLimit_fresh.
  - intros ip now store record Hrec Hwin Hfull.
    pose proof (checkRateLimit_full ip now store record Hrec Hwin Hfull) as Hcheck.
    split; [exact Hcheck|]. intros isURL request rt srv <- <- <-.
    apply POST_rejected. unfold admitted. by rewrite Hcheck.
  - intros ip now store record Hrec Hwin Hroom. by apply checkRateLimit_counts.
  - intros ip t0 times store Hstart Hlen Hwin. cbn [checkAll].
    rewrite (checkRateLimit_fresh ip t0 store Hstart).
    pose proof (checkAll_window ip (t0 + 60000) 1 times
                  (<[ip := {| count := 1; resetTime := t0 + 60000 |}]> store)) as Hrest.
    rewrite lookup_insert_eq in Hrest. specialize (Hrest eq_refl Hwin ltac:(lia)).
    destruct (checkAll ip times _) as [decisions store2]. cbn [fst] in *.
    rewrite Hrest, Hlen. reflexivity.
Qed.

Section IngestionFacts.
Variable isURL : string -> bool.
Implicit Types (request : NextRequest.t) (rt : Runtime) (srv : Server).



(** The statuses of the failures. A request over the limit is answered
    with 429, a body that fails validation with 400, and a failure of the
    persistence step (the directory cannot be created or the append throws)
    with the same 400, the log file being left as it was. No answer of the
    handler is a 5xx. *)
Lemma POST_failures_are_4xx request rt srv :
  (~ admitted request rt srv ->
   NextResponse.status (POST isURL request rt srv).1 = 429)
  /\ (admitted request rt srv -> invalidBody isURL request ->
      NextResponse.status (POST isURL request rt srv).1 = 400)
  /\ (forall body validatedData,
        admitted request rt srv ->
        NextRequest.json request = Some body ->
        ErrorLogSchema isURL body = Some validatedData ->
        ~ persists rt srv ->
        (POST isURL request rt srv).1
        = {| NextResponse.status := 400; NextResponse.success := false;
             NextResponse.error := Some "Invalid error log format"%string |}
        /\ logFile (disk (POST isURL request rt srv).2) = logFile (disk srv))
  /\ (NextResponse.status (POST isURL request rt srv).1 <> 200 ->
      is4xx (NextResponse.status (POST isURL request rt srv).1))
  /\ ~ is5xx (NextResponse.status (POST isURL request rt srv).1).
Proof.
  split; [|split; [|split; [|split]]].
  - intros Hrej. by rewrite POST_rejected.
  - intros Hok Hbad. by rewrite POST_invalid.
  - intros body validatedData Hok Hjson Hparse Hfs.
    by apply (POST_unpersisted isURL request rt srv body validatedData).
  - unfold is4xx. destruct (POST_statuses isURL request rt srv) as [H|[[H _]|[H _]]];
      rewrite H; [done|lia..].
  - unfold is5xx. destruct (POST_statuses isURL request rt srv) as [H|[[H _]|[H _]]];
      rewrite H; lia.
Qed.
End IngestionFacts.

Section MessageLength.
Variable isURL : string -> bool.

Lemma member_message (v : JSON) rest : member "message" (("message", v) :: rest) = Some v.
Proof. cbn [member]. by rewrite decide_True. Qed.

Lemma member_not_message key (v : JSON) rest :
  key <> "message"%string -> member key (("message", v) :: rest) = member key rest.
Proof. intros Hne. cbn [member]. by rewrite decide_False. Qed.

(** The schema reads the message of a report and nothing else of it
    depends on the message. *)
Lemma ErrorLogSchema_message rest (m : string) :
  ErrorLogSchema isURL (JObject (("message", JString m) :: rest))
  = message ← z.max 1000 m;
    ErrorLog.setMessage message
      <$> ErrorLogSchema isURL (JObject (("message", JString "") :: rest)).
Proof.
  unfold ErrorLogSchema.
  rewrite !member_message.
  rewrite !(member_not_message "stack"), !(member_not_message "url"),
    !(member_not_message "lineNumber"), !(member_not_message "columnNumber"),
    !(member_not_message "browser"), !(member_not_message "os"),
    !(member_not_message "timestamp"), !(member_not_message "type"),
    !(member_not_message "userAgent") by done.
  cbn [z.string mbind option_bind]. change (z.max 1000 "") with (Some ""%string).
  destruct (z.max 1000 m) as [message|]; [|done]. cbn [mbind option_bind].
  destruct (z.optional z.string (member "stack" rest)); [|done]. cbn [mbind option_bind].
  destruct (z.string (member "url" rest) ≫= z.url isURL); [|done]. cbn [mbind option_bind].
  destruct (z.optional z.number (member "lineNumber" rest)); [|done]. cbn [mbind option_bind].
  destruct (z.optional z.number (member "columnNumber" rest)); [|done]. cbn [mbind option_bind].
  destruct (z.optional z.string (member "browser" rest)); [|done]. cbn [mbind option_bind].
  destruct (z.optional z.string (member "os" rest)); [|done]. cbn [mbind option_bind].
  destruct (z.number (member "timestamp" rest)); [|done]. cbn [mbind option_bind].
  destruct (z.enum _ (member "type" rest)); [|done]. cbn [mbind option_bind].
  destruct (z.optional z.string (member "userAgent" rest)); [|done]. done.
Qed.

(** C5, as the code has it. Take a report that would pass the schema with
    an empty message. With a message of at most 1000 characters it passes
    and the message is kept as it is, without truncation; with a longer
    message it fails the schema, and [POST] answers an admitted request that
    carries it with 400. *)
Theorem message_length_limit rest (m : string) v0 :
  ErrorLogSchema isURL (JObject (("message", JString "") :: rest)) = Some v0 ->
  ((String.length m <= 1000)%nat ->
   ErrorLogSchema isURL (JObject (("message", JString m) :: rest))
   = Some (ErrorLog.setMessage m v0))
  /\ ((1000 < String.length m)%nat ->
      ErrorLogSchema isURL (JObject (("message", JString m) :: rest)) = None
      /\ forall request rt srv,
           admitted request rt srv ->
           NextRequest.json request = Some (JObject (("message", JString m) :: rest)) ->
           (POST isURL request rt srv).1
           = {| NextResponse.status := 400; NextResponse.success := false;
                NextResponse.error := Some "Invalid error log format"%string |}).
Proof.
  intros Hvalid. rewrite ErrorLogSchema_message, Hvalid. unfold z.max. split.
  - intros Hshort. destruct (Nat.leb_spec (String.length m) 1000); [done|lia].
  - intros Hlong. destruct (Nat.leb_spec (String.length m) 1000); [lia|].
    split; [done|]. intros request rt srv Hok Hjson.
    rewrite POST_invalid; [done|done|].
    unfold invalidBody. rewrite Hjson, ErrorLogSchema_message. unfold z.max.
    destruct (Nat.leb_spec (String.length m) 1000); [lia|done].
Qed.
End MessageLength.

(** ** The sample requests *)

(** Eleven requests of one client within a second: ten pass. *)
Example eleven_requests :
  (checkAll "203.0.113.7" (seq_times 1700000000000 11) ∅).1
  = [true; true; true; true; true; true; true; true; true; true; false].
Proof. vm_compute. reflexivity. Qed.

(** A request one millisecond after [resetTime] opens a new window. *)
Example request_after_the_window :
  let store := (checkAll "203.0.113.7" (seq_times 1700000000000 11) ∅).2 in
  (checkRateLimit "203.0.113.7" (1700000000000 + 60000) store).1 = false
  /\ checkRateLimit "203.0.113.7" (1700000000000 + 60001) store
     = (true, <["203.0.113.7"%string :=
                  {| count := 1; resetTime := 1700000000000 + 60001 + 60000 |}]> store).
Proof. split; [vm_compute; reflexivity|]. apply checkRateLimit_fresh. right.
  eexists. split; [vm_compute; reflexivity|]. cbn. lia.
Qed.


Lemma message_length_limit_witness :
  ErrorLogSchema sampleIsURL (sampleBody (xs 1001)) = None
  /\ ErrorLog.message <$> ErrorLogSchema sampleIsURL (sampleBody (xs 1000))
     = Some (xs 1000).
Proof.
  assert (exists v0, ErrorLogSchema sampleIsURL (sampleBody "") = Some v0) as [v0 Hv0]
    by (eexists; vm_compute; reflexivity).
  destruct (message_length_limit sampleIsURL sampleMembers (xs 1001) v0 Hv0) as [_ Hlong].
  destruct (message_length_limit sampleIsURL sampleMembers (xs 1000) v0 Hv0) as [Hshort _].
  split.
  - apply Hlong. vm_compute. lia.
  - unfold sampleBody. rewrite Hshort; [reflexivity|]. vm_compute. lia.
Defined.

(** Against the specification: a message of 1001 characters makes an
    otherwise valid report fail validation, and a message of 201 characters
    is stored whole, not cut to 200. *)
Lemma long_message_is_rejected :
  is_Some (ErrorLogSchema sampleIsURL (sampleBody (xs 1000)))
  /\ ErrorLogSchema sampleIsURL (sampleBody (xs 1001)) = None
  /\ NextResponse.status
       (POST sampleIsURL (sampleRequest (sampleBody (xs 1001))) sampleRuntime freshServer).1
     = 400
  /\ ErrorLog.message <$> ErrorLogSchema sampleIsURL (sampleBody (xs 201)) = Some (xs 201)
  /\ String.length (xs 201) = 201%nat.
Proof.
  split; [vm_compute; eauto|]. repeat split; vm_compute; reflexivity.
Qed.

(** C6. The handler at a failure of its own. The report of the sample
    request is valid and the limiter admits it, but the append to the log
    throws: the handler answers 400 with the text it has for a report that
    fails validation, which is a 4xx and not a 5xx, and nothing is written.
    The middleware of the same repository answers a handler that throws with
    500. *)
Lemma persistence_failure_is_400 :
  admitted (sampleRequest (sampleBody "boom")) fullDisk freshServer
  /\ is_Some (ErrorLogSchema sampleIsURL (sampleBody "boom"))
  /\ appendFileSyncFails fullDisk = true
  /\ (POST sampleIsURL (sampleRequest (sampleBody "boom")) fullDisk freshServer).1
     = {| NextResponse.status := 400; NextResponse.success := false;
          NextResponse.error := Some "Invalid error log format"%string |}
  /\ logFile (disk (POST sampleIsURL (sampleRequest (sampleBody "boom"))
                      fullDisk freshServer).2)
     = logFile (disk freshServer)
  /\ is4xx (NextResponse.status
              (POST sampleIsURL (sampleRequest (sampleBody "boom")) fullDisk freshServer).1)
  /\ ~ is5xx (NextResponse.status
                (POST sampleIsURL (sampleRequest (sampleBody "boom")) fullDisk freshServer).1)
  /\ (withErrorHandler throwingHandler sampleHandled production () emptyLogs).1.1
     = Answered
         {| NextResponse.status := 500; NextResponse.success := false;
            NextResponse.error :=
              Some "Internal Server Error. Please try again later."%string |}.
Proof.
  split; [reflexivity|]. split; [vm_compute; eauto|]. split; [reflexivity|].
  split; [vm_compute; reflexivity|]. split; [vm_compute; reflexivity|].
  replace (NextResponse.status _) with 400 by (vm_compute; reflexivity).
  unfold is4xx, is5xx. split; [lia|]. split; [lia|]. vm_compute. reflexivity.
Qed.

(** * Further properties *)

(** ** Debounced error reporting *)

Section DebounceFacts.
Context {W E : Type} (now : W -> Z).
Implicit Types (queue : gmap string Z) (reportFn : W -> result unit E * W) (w : W)
  (calls : list ((W -> result unit E * W) * W)).

Lemma debounced_suppressed errorKey reportFn queue w last :
  queue !! errorKey = Some last -> last <> 0 ->
  now w - last <= ERROR_REPORT_DEBOUNCE ->
  debouncedErrorReport now errorKey reportFn queue w
  = {| reported := Returned (); errorReportQueue := queue;
       after_report := w; report_trace := [] |}.
Proof.
  intros Hlast Hnz Hsoon. unfold debouncedErrorReport, reportDue. rewrite Hlast.
  destruct (Z.eqb_spec last 0); [done|].
  destruct (Z.ltb_spec ERROR_REPORT_DEBOUNCE (now w - last)); [lia|done].
Qed.

(** A call that reaches [reportFn] records its time, whether [reportFn]
    returns or throws. *)
Lemma debounced_fired errorKey reportFn queue w :
  report_trace (debouncedErrorReport now errorKey reportFn queue w) <> [] ->
  errorReportQueue (debouncedErrorReport now errorKey reportFn queue w)
  = <[errorKey := now w]> queue
  /\ reportDue (queue !! errorKey) (now w) = true.
Proof.
  unfold debouncedErrorReport. destruct (reportDue _ _); [|done].
  by destruct (reportFn w) as [[[]|e] w1].
Qed.

Lemma debounced_skipped errorKey reportFn queue w :
  report_trace (debouncedErrorReport now errorKey reportFn queue w) = [] ->
  errorReportQueue (debouncedErrorReport now errorKey reportFn queue w) = queue.
Proof.
  unfold debouncedErrorReport. destruct (reportDue _ _); [|done].
  by destruct (reportFn w) as [[[]|e] w1].
Qed.

Lemma reportAll_spaced errorKey calls queue last :
  queue !! errorKey = Some last -> last <> 0 ->
  Forall (fun call => now call.2 <> 0) calls ->
  Sorted spaced (last :: (reportAll now errorKey calls queue).1).
Proof.
  revert queue last. induction calls as [|[reportFn w] calls IH]; intros queue last Hlast Hnz Hall.
  { cbn. repeat constructor. }
  apply Forall_cons in Hall as [Hw Hall]. cbn in Hw. cbn [reportAll].
  destruct (report_trace (debouncedErrorReport now errorKey reportFn queue w)) as [|ev evs] eqn:Htr.
  - rewrite (debounced_skipped _ _ _ _ Htr).
    specialize (IH queue last Hlast Hnz Hall).
    by destruct (reportAll now errorKey calls queue) as [times queue'].
  - destruct (debounced_fired errorKey reportFn queue w) as [-> Hdue]; [by rewrite Htr|].
    specialize (IH (<[errorKey := now w]> queue) (now w)).
    rewrite lookup_insert_eq in IH. specialize (IH eq_refl Hw Hall).
    destruct (reportAll now errorKey calls _) as [times queue']. cbn [fst] in *.
    constructor; [exact IH|]. constructor. unfold spaced.
    unfold reportDue in Hdue. rewrite Hlast in Hdue.
    destruct (Z.eqb_spec last 0); [done|].
    destruct (Z.ltb_spec ERROR_REPORT_DEBOUNCE (now w - last)); [done|done].
Qed.

(** X1. In any series of calls of [debouncedErrorReport] for one key, made
    at times other than 0 and starting from a queue that holds no 0 for the
    key, each call that reaches [reportFn] comes more than 5000 ms after the
    previous one that did, and the first one more than 5000 ms after the
    time the queue held. *)
Theorem debounce_spacing errorKey (calls : list ((W -> result unit E * W) * W)) queue :
  (forall last, queue !! errorKey = Some last -> last <> 0) ->
  Forall (fun call => now call.2 <> 0) calls ->
  Sorted spaced (reportAll now errorKey calls queue).1
  /\ forall last, queue !! errorKey = Some last ->
       Sorted spaced (last :: (reportAll now errorKey calls queue).1).
Proof.
  intros Hqueue Hall.
  assert (forall last, queue !! errorKey = Some last ->
            Sorted spaced (last :: (reportAll now errorKey calls queue).1)) as Hfrom.
  { intros last Hlast. apply reportAll_spaced; [done|by apply Hqueue|done]. }
  split; [|exact Hfrom].
  destruct (queue !! errorKey) as [last|] eqn:Hlast.
  { specialize (Hfrom last eq_refl). by inversion Hfrom. }
  destruct calls as [|[reportFn w] calls]; [constructor|].
  apply Forall_cons in Hall as [Hw Hall]. cbn in Hw. cbn [reportAll].
  unfold debouncedErrorReport at 1 2. rewrite Hlast. cbn [reportDue].
  pose proof (reportAll_spaced errorKey calls (<[errorKey := now w]> queue) (now w)) as Hrest.
  rewrite lookup_insert_eq in Hrest. specialize (Hrest eq_refl Hw Hall).
  destruct (reportFn w) as [[[]|e] w1]; cbn [report_trace errorReportQueue];
    by destruct (reportAll now errorKey calls _) as [times queue'].
Qed.

(** X2. When [reportFn] throws, the error reaches the caller and the time of
    the attempt is recorded all the same: a further call for the key within
    5000 ms does not call its [reportFn] and changes nothing. *)
Theorem debounce_failed_report_not_retried errorKey reportFn reportFn' queue w w1 w' e :
  reportDue (queue !! errorKey) (now w) = true ->
  reportFn w = (Rejected e, w1) ->
  now w <> 0 ->
  now w' - now w <= ERROR_REPORT_DEBOUNCE ->
  let first := debouncedErrorReport now errorKey reportFn queue w in
  reported first = Threw (Raised e)
  /\ debouncedErrorReport now errorKey reportFn' (errorReportQueue first) w'
     = {| reported := Returned (); errorReportQueue := errorReportQueue first;
          after_report := w'; report_trace := [] |}.
Proof.
  intros Hdue Hthrow Hnz Hsoon first.
  assert (first = {| reported := Threw (Raised e);
                     errorReportQueue := <[errorKey := now w]> queue;
                     after_report := w1; report_trace := [Invoke (Rejected e)] |}) as ->.
  { subst first. unfold debouncedErrorReport. by rewrite Hdue, Hthrow. }
  cbn [reported errorReportQueue].
  split; [done|]. apply (debounced_suppressed _ _ _ _ (now w)); [|done..].
  apply lookup_insert_eq.
Qed.

(** Calls for one key leave the times of the other keys alone. *)
Lemma debounced_other errorKey key reportFn queue w :
  key <> errorKey ->
  errorReportQueue (debouncedErrorReport now errorKey reportFn queue w) !! key = queue !! key.
Proof.
  intros Hne. unfold debouncedErrorReport. destruct (reportDue _ _); [|done].
  destruct (reportFn w) as [[[]|e] w1]; cbn; by rewrite lookup_insert_ne.
Qed.
End DebounceFacts.

Example debounce_times :
  (reportAll id "save-failed"
     [(fun w => (Resolved (), w), 1000); (fun w => (Rejected "offline"%string, w), 3000);
      (fun w => (Resolved (), w), 6000); (fun w => (Resolved (), w), 6001);
      (fun w => (Resolved (), w), 11002)] ∅).1
  = [1000; 6001; 11002].
Proof. vm_compute. reflexivity. Qed.

Lemma debounce_spacing_witness :
  Sorted spaced
    (reportAll id "save-failed"
       [(fun w => (Resolved (), w), 1000); (fun w => (Rejected "offline"%string, w), 6001)] ∅).1
  /\ forall last, (∅ : gmap string Z) !! "save-failed"%string = Some last ->
       Sorted spaced
         (last :: (reportAll id "save-failed"
             [(fun w => (Resolved (), w), 1000);
              (fun w => (Rejected "offline"%string, w), 6001)] ∅).1).
Proof.
  apply (debounce_spacing id "save-failed"
           [(fun w => (Resolved (), w), 1000); (fun w => (Rejected "offline"%string, w), 6001)] ∅).
  - intros last Hlast. rewrite lookup_empty in Hlast. discriminate Hlast.
  - repeat constructor; cbn; lia.
Defined.

Lemma debounce_failed_report_not_retried_witness :
  let first :=
    debouncedErrorReport id "save-failed" (fun w => (Rejected "offline"%string, w + 1)) ∅ 1000 in
  reported first = Threw (Raised "offline"%string)
  /\ debouncedErrorReport (E:=string) id "save-failed" (fun w => (Resolved (), w))
       (errorReportQueue first) 6000
     = {| reported := Returned (); errorReportQueue := errorReportQueue first;
          after_report := 6000; report_trace := [] |}.
Proof.
  apply (debounce_failed_report_not_retried id "save-failed"
           (fun w => (Rejected "offline"%string, w + 1)) (fun w => (Resolved (), w))
           ∅ 1000 1001 6000 "offline"%string).
  - reflexivity.
  - reflexivity.
  - cbn. lia.
  - cbn. unfold ERROR_REPORT_DEBOUNCE. lia.
Defined.

(** ** Circuit breakers: the registry, streaks, the half-open state *)

Section RegistryFacts.
Import CircuitBreaker.
Context {W T E : Type} (now : W -> Z).
Implicit Types (cb : t) (fn : W -> result T E * W) (w : W)
  (calls : list ((W -> result T E * W) * W))
  (traffic : list (string * ((W -> result T E * W) * W)))
  (registry : gmap string t).

Lemma executeFor_same key fn w registry :
  (executeFor now key fn w registry).2 !! key
  = Some (breaker (execute now (default (new None None) (registry !! key)) fn w)).
Proof.
  unfold executeFor, getCircuitBreaker.
  destruct (registry !! key) as [cb|]; cbn; by rewrite lookup_insert_eq.
Qed.

Lemma executeFor_other key key' fn w registry :
  key <> key' ->
  (executeFor now key' fn w registry).2 !! key = registry !! key.
Proof.
  intros Hne. unfold executeFor, getCircuitBreaker.
  destruct (registry !! key') as [cb|]; cbn; by rewrite !lookup_insert_ne.
Qed.

Lemma executeForAll_lookup key traffic registry :
  executeForAll now traffic registry !! key
  = match callsFor key traffic with
    | [] => registry !! key
    | calls => Some (executeAll now (default (new None None) (registry !! key)) calls)
    end.
Proof.
  revert registry. induction traffic as [|[key' [fn w]] traffic IH]; intros registry; [done|].
  cbn [executeForAll]. rewrite IH. unfold callsFor. rewrite filter_cons. cbn [fst].
  destruct (decide (key' = key)) as [->|Hne].
  - rewrite fmap_cons. cbn [snd executeAll]. rewrite executeFor_same.
    by destruct (snd <$> filter _ traffic).
  - rewrite executeFor_other by done. done.
Qed.

(** X3. The breakers of different keys do not influence each other, and
    every breaker starts with the defaults: after any traffic through
    [getCircuitBreaker(key).execute(fn)] on an empty registry, a key that
    was never used has no breaker, and the breaker of any other key is the
    one that a new breaker with threshold 5 and timeout 60000 becomes under
    the calls made for that key alone. *)
Theorem registry_isolates_keys key traffic :
  executeForAll now traffic ∅ !! key
  = match callsFor key traffic with
    | [] => None
    | calls => Some (executeAll now (new None None) calls)
    end
  /\ forall cb, executeForAll now traffic ∅ !! key = Some cb ->
       failureThreshold cb = 5 /\ resetTimeout cb = 60000.
Proof.
  assert (executeForAll now traffic ∅ !! key
          = match callsFor key traffic with
            | [] => None
            | calls => Some (executeAll now (new None None) calls)
            end) as Hlookup.
  { rewrite executeForAll_lookup, lookup_empty. done. }
  split; [exact Hlookup|]. intros cb Hcb. rewrite Hlookup in Hcb.
  destruct (callsFor key traffic) as [|call calls]; [done|]. injection Hcb as <-.
  apply (executeAll_config now (call :: calls) (new None None)).
Qed.

(** The longest run of failures at the end of the calls. *)
Lemma executeAll_streak calls cb :
  state cb = CLOSED -> failures cb = 0 ->
  (forall pre run post, calls = pre ++ run ++ post -> Forall fails run ->
     Z.of_nat (length run) < failureThreshold cb) ->
  state (executeAll now cb calls) = CLOSED
  /\ exists pre run,
       calls = pre ++ run /\ Forall fails run
       /\ (forall pre' call, pre = pre' ++ [call] -> ~ fails call)
       /\ failures (executeAll now cb calls) = Z.of_nat (length run).
Proof.
  intros Hst Hzero. induction calls as [|[fn w] calls IH] using rev_ind; intros Hruns.
  { split; [done|]. exists [], []. split; [done|]. split; [constructor|].
    split; [|exact Hzero]. intros pre' call Heq. by destruct pre'. }
  destruct IH as (Hclosed & pre & run & -> & Hrun & Hmax & Hcount).
  { intros pre run post Heq. apply (Hruns pre run (post ++ [(fn, w)])).
    rewrite Heq. by rewrite <- !app_assoc. }
  rewrite executeAll_app. cbn [executeAll]. unfold execute, guard. rewrite Hclosed.
  destruct (executeAll_config now (pre ++ run) cb) as [HT _].
  destruct (fn w) as [[v|e] w1] eqn:Hfn; cbn [breaker].
  - split; [done|]. exists ((pre ++ run) ++ [(fn, w)]), []. rewrite app_nil_r.
    split; [done|]. split; [constructor|]. split; [|done].
    intros pre' call [_ <-]%app_inj_tail [e He]. cbn in He. rewrite Hfn in He. done.
  - assert (Forall fails (run ++ [(fn, w)])) as Hrun'.
    { apply Forall_app. split; [done|]. repeat constructor. exists e. cbn. by rewrite Hfn. }
    specialize (Hruns pre (run ++ [(fn, w)]) [] ltac:(by rewrite app_nil_r, app_assoc) Hrun').
    rewrite length_app in Hruns. cbn [length] in Hruns.
    cbn. rewrite HT, Hcount.
    destruct (Z.leb_spec (failureThreshold cb) (Z.of_nat (length run) + 1)); [lia|].
    split; [done|]. exists pre, (run ++ [(fn, w)]).
    split; [by rewrite app_assoc|]. split; [done|]. split; [exact Hmax|].
    rewrite length_app. cbn. lia.
Qed.

(** X5. Only failures in a row count. If a closed breaker without recorded
    failures never sees as many failed calls in a row as its threshold, it is
    [CLOSED] after every one of the calls, so none of them is refused, and
    its counter is the length of the longest run of failures that ends the
    calls: the calls split into [pre ++ run] where every call of [run]
    failed and [pre] is empty or ends with a call that did not fail, and
    [failures] is the length of [run]. *)
Theorem breaker_counts_consecutive_failures calls cb :
  state cb = CLOSED -> failures cb = 0 ->
  (forall pre run post, calls = pre ++ run ++ post -> Forall fails run ->
     Z.of_nat (length run) < failureThreshold cb) ->
  (forall done rest, calls = done ++ rest -> state (executeAll now cb done) = CLOSED)
  /\ exists pre run,
       calls = pre ++ run /\ Forall fails run
       /\ (forall pre' call, pre = pre' ++ [call] -> ~ fails call)
       /\ failures (executeAll now cb calls) = Z.of_nat (length run).
Proof.
  intros Hst Hzero Hruns. split; [|by apply executeAll_streak].
  intros done rest ->. apply executeAll_streak; [done..|].
  intros pre run post -> Hrun. apply (Hruns pre run (post ++ rest)); [|done].
  by rewrite <- !app_assoc.
Qed.

(** X4. A failure in the half-open state opens the breaker again at once.
    For a breaker reached from a new one that is [OPEN], a call made after
    the timeout whose operation fails throws that failure, leaves the breaker
    [OPEN] with one more failure counted, and sets [lastFailureTime] to the
    time of this failure, so that the timeout starts again. *)
Theorem half_open_failure_reopens (threshold timeout : option Z) calls fn w e :
  state (executeAll now (new threshold timeout) calls) = OPEN ->
  resetTimeout (executeAll now (new threshold timeout) calls)
  < now w - lastFailureTime (executeAll now (new threshold timeout) calls) ->
  (fn w).1 = Rejected e ->
  execute now (executeAll now (new threshold timeout) calls) fn w
  = {| completed := Threw (Raised e);
       breaker :=
         {| failures := failures (executeAll now (new threshold timeout) calls) + 1;
            lastFailureTime := now (fn w).2;
            state := OPEN;
            failureThreshold := failureThreshold (executeAll now (new threshold timeout) calls);
            resetTimeout := resetTimeout (executeAll now (new threshold timeout) calls) |};
       world := (fn w).2;
       trace := [Invoke (Rejected e)] |}.
Proof.
  set (cb := executeAll now (new threshold timeout) calls).
  intros Hopen Hlate Hfail.
  assert (settled cb) as [_ Htripped].
  { apply executeAll_settled. split; [done|]. intros Hne. by destruct Hne. }
  unfold execute, guard. rewrite Hopen.
  destruct (Z.ltb_spec (resetTimeout cb) (now w - lastFailureTime cb)); [|lia].
  destruct (fn w) as [r w1]. cbn in Hfail. subst r. cbn.
  unfold tripped in Htripped. rewrite Hopen in Htripped. specialize (Htripped ltac:(done)).
  unfold onFailure, setState. cbn.
  destruct (Z.leb_spec (failureThreshold cb) (failures cb + 1)); [done|lia].
Qed.
End RegistryFacts.

Lemma breaker_counts_consecutive_failures_witness :
  (forall done rest,
     [(down, 100); (down, 100); (up, 100); (down, 100)] = done ++ rest ->
     CircuitBreaker.state (CircuitBreaker.executeAll id (CircuitBreaker.new None None) done)
     = CircuitBreaker.CLOSED)
  /\ exists pre run,
       [(down, 100); (down, 100); (up, 100); (down, 100)] = pre ++ run
       /\ Forall CircuitBreaker.fails run
       /\ (forall pre' call, pre = pre' ++ [call] -> ~ CircuitBreaker.fails call)
       /\ CircuitBreaker.failures
            (CircuitBreaker.executeAll id (CircuitBreaker.new None None)
               [(down, 100); (down, 100); (up, 100); (down, 100)])
          = Z.of_nat (length run).
Proof.
  apply (breaker_counts_consecutive_failures id
           [(down, 100); (down, 100); (up, 100); (down, 100)] (CircuitBreaker.new None None)).
  - reflexivity.
  - reflexivity.
  - intros pre run post Heq _. apply (f_equal length) in Heq.
    rewrite !length_app in Heq. cbn in *. lia.
Defined.

Lemma half_open_failure_reopens_witness :
  CircuitBreaker.execute id
    (CircuitBreaker.executeAll id (CircuitBreaker.new None None) five_failures) down 60102
  = {| CircuitBreaker.completed := Threw (Raised "fetch failed"%string);
       CircuitBreaker.breaker :=
         {| CircuitBreaker.failures :=
              CircuitBreaker.failures
                (CircuitBreaker.executeAll id (CircuitBreaker.new None None) five_failures) + 1;
            CircuitBreaker.lastFailureTime := id (down 60102).2;
            CircuitBreaker.state := CircuitBreaker.OPEN;
            CircuitBreaker.failureThreshold :=
              CircuitBreaker.failureThreshold
                (CircuitBreaker.executeAll id (CircuitBreaker.new None None) five_failures);
            CircuitBreaker.resetTimeout :=
              CircuitBreaker.resetTimeout
                (CircuitBreaker.executeAll id (CircuitBreaker.new None None) five_failures) |};
       CircuitBreaker.world := (down 60102).2;
       CircuitBreaker.trace := [Invoke (Rejected "fetch failed"%string)] |}.
Proof.
  apply (half_open_failure_reopens id None None five_failures down 60102 "fetch failed"%string).
  - reflexivity.
  - vm_compute. reflexivity.
  - reflexivity.
Defined.

(** ** retry: waiting time, a callback that throws *)

Section RetryMore.
Context {W T E : Type}.
Implicit Types (fn : W -> result T E * W) (w : W) (tr : list (event T E)).

(** Where the product stays below [2^1024], and [Math.pow] below
    [2^1024] too, the wait is the exact number. *)
Lemma currentDelay_finite b d k :
  1 <= k ->
  (b = true -> k <= 1024 /\ Z.abs d * 2 ^ (k - 1) < 2 ^ 1024) ->
  currentDelay b d k = Finite (if b then d * 2 ^ (k - 1) else d).
Proof.
  intros Hk Hsmall. rewrite currentDelay_value by done. destruct b; [|done].
  destruct (Hsmall eq_refl) as [Hk' Hlt]. cbn [negb].
  destruct (Z.eqb_spec d 0) as [->|_].
  - destruct (Z.leb_spec k 1024); [|lia]. by rewrite Z.mul_0_l.
  - destruct (Z.ltb_spec (Z.abs d * 2 ^ (k - 1)) (2 ^ 1024)); [done|lia].
Qed.

(** The waits of a run of failed rounds, all finite, add up to a
    geometric sum with backoff and to a multiple of [delay] without. *)
Lemma totalWait_failedRounds s b d (errs : list E) (fin : result T E) k :
  1 <= k ->
  (b = true ->
   forall j, k <= j < k + Z.of_nat (length errs) ->
     j <= 1024 /\ Z.abs d * 2 ^ (j - 1) < 2 ^ 1024) ->
  totalWait (failedRounds s (currentDelay b d) k errs ++ [Invoke fin])
  = Some (if b then d * (2 ^ (k + Z.of_nat (length errs) - 1) - 2 ^ (k - 1))
          else d * Z.of_nat (length errs)).
Proof.
  revert k. induction errs as [|e errs IH]; intros k Hk Hsmall.
  { cbn. f_equal. destruct b; [|lia]. replace (k + Z.of_nat 0 - 1) with (k - 1) by lia. lia. }
  cbn [failedRounds length] in *.
  rewrite currentDelay_finite; [|done|intros Hb; apply (Hsmall Hb); lia].
  assert (totalWait ((Invoke (Rejected e) :: (if s then [OnRetry k e] else [])
                      ++ Sleep (Finite (if b then d * 2 ^ (k - 1) else d))
                         :: failedRounds s (currentDelay b d) (k + 1) errs) ++ [Invoke fin])
          = Z.add (if b then d * 2 ^ (k - 1) else d)
              <$> totalWait (failedRounds s (currentDelay b d) (k + 1) errs ++ [Invoke fin]))
    as -> by (by destruct s).
  rewrite IH; [|lia|intros Hb j Hj; apply (Hsmall Hb); lia].
  cbn. f_equal. destruct b; [|lia].
  replace (k + 1 + Z.of_nat (length errs) - 1) with (k + Z.of_nat (S (length errs)) - 1) by lia.
  replace (k + 1 - 1) with (Z.succ (k - 1)) by lia.
  rewrite Z.pow_succ_r by lia. lia.
Qed.

(** X6. When every one of the [maxAttempts] attempts fails (for an integer
    [maxAttempts] from 1 to [2^53 - 1], with an [onRetry] that returns when
    supplied), [retry] throws the error of the last attempt in the world
    that attempt left, having called the operation exactly [maxAttempts]
    times. As long as no wait overflows, which with backoff means
    [maxAttempts <= 1025] and [|delay| * 2^(maxAttempts-2) < 2^1024], it has
    asked [setTimeout] for [delay * (2^(maxAttempts-1) - 1)] milliseconds in
    total with backoff, and for [delay * (maxAttempts - 1)] without. The
    same holds of the loop on numbers at this integer. *)
Theorem retry_exhaustion_wait fn (options : RetryOptions W E) w errs wk e w' :
  1 <= default 3 (maxAttempts options) <= 2 ^ 53 - 1 ->
  Z.of_nat (length errs) + 1 = default 3 (maxAttempts options) ->
  attemptsFail fn (onRetry options) 1 w errs wk ->
  fn wk = (Rejected e, w') ->
  (default true (backoff options) = true ->
   default 3 (maxAttempts options) <= 1025
   /\ Z.abs (default 1000 (delay options)) * 2 ^ (default 3 (maxAttempts options) - 2)
      < 2 ^ 1024) ->
  exists tr,
    retry fn options w = Some (Threw (Raised e), w', tr)
    /\ retryNumber fn (inject_Z (default 3 (maxAttempts options))) options w
       = Some (Threw (Raised e), w', tr)
    /\ Z.of_nat (invocations tr) = default 3 (maxAttempts options)
    /\ totalWait tr
       = Some (if default true (backoff options)
               then default 1000 (delay options)
                    * (2 ^ (default 3 (maxAttempts options) - 1) - 1)
               else default 1000 (delay options)
                    * (default 3 (maxAttempts options) - 1)).
Proof.
  intros Hmax Hlen Hfail Hfin Hsmall.
  rewrite retryNumber_integer.
  rewrite (retry_course fn options w errs wk (Rejected e) w' Hfail Hfin) by lia.
  eexists. split; [reflexivity|]. split; [reflexivity|]. split.
  { rewrite invocations_app, invocations_failedRounds. cbn. lia. }
  rewrite totalWait_failedRounds; [|lia|].
  - f_equal. rewrite <- Hlen.
    replace (1 + Z.of_nat (length errs) - 1) with (Z.of_nat (length errs) + 1 - 1) by lia.
    change (2 ^ (1 - 1)) with 1.
    destruct (default true (backoff options)); [done|]. f_equal. lia.
  - intros Hb j Hj. destruct (Hsmall Hb) as [Hcount Hlt]. split; [lia|].
    assert (2 ^ (j - 1) <= 2 ^ (default 3 (maxAttempts options) - 2)) as Hpow
      by (apply Z.pow_le_mono_r; lia).
    pose proof (Z.abs_nonneg (default 1000 (delay options))). nia.
Qed.

(** X7. When [onRetry] throws, [retry] stops there: with at least two
    attempts allowed, an operation that fails and a callback that throws on
    it, [retry] throws what the callback threw, having called the operation
    once and without waiting. *)
Theorem retry_callback_throws fn (options : RetryOptions W E) callback w e w1 x w2 :
  2 <= default 3 (maxAttempts options) ->
  onRetry options = Some callback ->
  fn w = (Rejected e, w1) ->
  callback 1 e w1 = (Rejected x, w2) ->
  retry fn options w = Some (Threw (Raised x), w2, [Invoke (Rejected e); OnRetry 1 e]).
Proof.
  intros Hmax Hcb Hfn Hthrow. unfold retry. cbn [retry_loop].
  destruct (Z.leb_spec 1 (default 3 (maxAttempts options))); [|lia].
  rewrite Hfn. destruct (Z.eqb_spec 1 (default 3 (maxAttempts options))); [lia|].
  by rewrite Hcb, Hthrow.
Qed.
End RetryMore.

Lemma retry_exhaustion_wait_witness :
  exists tr,
    retry down noOptions 0 = Some (Threw (Raised "fetch failed"%string), 3, tr)
    /\ retryNumber down (inject_Z 3) noOptions 0
       = Some (Threw (Raised "fetch failed"%string), 3, tr)
    /\ Z.of_nat (invocations tr) = 3
    /\ totalWait tr = Some (1000 * (2 ^ (3 - 1) - 1)).
Proof.
  apply (retry_exhaustion_wait down noOptions 0 ["fetch failed"; "fetch failed"]%string 2
           "fetch failed"%string 3).
  - cbn. lia.
  - reflexivity.
  - cbn. eauto 10.
  - reflexivity.
  - intros _. cbn. split; [lia|]. vm_compute. reflexivity.
Defined.

Lemma retry_callback_throws_witness :
  retry down
    {| maxAttempts := None; delay := None; backoff := None;
       onRetry := Some (fun _ e w => (Rejected e, w)) |} 0
  = Some (Threw (Raised "fetch failed"%string), 1,
          [Invoke (Rejected "fetch failed"%string); OnRetry 1 "fetch failed"%string]).
Proof.
  apply (retry_callback_throws down
           {| maxAttempts := None; delay := None; backoff := None;
              onRetry := Some (fun _ e w => (Rejected e, w)) |}
           (fun _ e w => (Rejected e, w)) 0 "fetch failed"%string 1 "fetch failed"%string 1).
  - cbn. lia.
  - reflexivity.
  - reflexivity.
  - reflexivity.
Defined.

(** ** Fallback cache: one entry per key *)

Section FallbackMore.
Context {W RequestInit Data E : Type}.
Variable fetch : string -> RequestInit -> W -> result (Response.t Data E) E * W.

(** X8. The fallback cache is keyed by [fallbackKey] alone. After a
    successful call for one url with a non-empty key, a failing call for any
    url with the same key returns the payload of the first url instead of
    throwing. *)
Theorem fallback_shared_between_urls url1 options1 w1 url2 options2 w2 key cache data failure :
  key <> ""%string ->
  liveSuccess fetch url1 options1 w1 data ->
  liveFailure fetch url2 options2 w2 failure ->
  answer
    (fetchWithFallback fetch url2 options2 (Some key)
       (fallbackCache (fetchWithFallback fetch url1 options1 (Some key) cache w1)) w2)
  = Returned data.
Proof.
  intros Hkey (response & w' & Hfetch & Hok & Hjson) Hfail.
  rewrite (fetchWithFallback_failure _ _ _ _ _ _ _ Hfail).
  assert (fallbackCache (fetchWithFallback fetch url1 options1 (Some key) cache w1)
          = <[key := data]> cache) as ->.
  { unfold fetchWithFallback. rewrite Hfetch, Hok, Hjson. cbn [negb fallbackCache].
    by rewrite truthy_Some. }
  rewrite (useFallback_hit _ _ _ _ data); [done|done|]. apply lookup_insert_eq.
Qed.
End FallbackMore.

Lemma fallback_shared_between_urls_witness :
  answer
    (fetchWithFallback sampleFetch "https://x/prices" () (Some "k"%string)
       (fallbackCache
          (fetchWithFallback sampleFetch "https://x/data" () (Some "k"%string) ∅ true))
       false)
  = Returned 42%nat.
Proof.
  apply (fallback_shared_between_urls sampleFetch "https://x/data" () true
           "https://x/prices" () false "k"%string ∅ 42%nat (Raised "network down"%string)).
  - discriminate.
  - by eexists _, _.
  - reflexivity.
Defined.

(** ** Error classifier: more text never lowers the category *)

Lemma toLowerCase_app (a b : string) :
  toLowerCase (a +:+ b) = toLowerCase a +:+ toLowerCase b.
Proof.
  induction a as [|x a IH]; [done|].
  rewrite append_cons. cbn [toLowerCase]. by rewrite append_cons, IH.
Qed.

Lemma occurs_extend (kw s pre post : string) :
  occurs kw s -> occurs kw (pre +:+ s +:+ post).
Proof.
  intros (a & b & ->). exists (pre +:+ a), (b +:+ post).
  by rewrite !string_app_assoc.
Qed.

(** X9. Text added before or after a message can only move its
    category to an earlier place in the order network, validation, server,
    unknown: a message classified as network stays network whatever is
    added around it. *)
Theorem classifyError_context (pre m post : string) :
  (rank (classifyError {| message := pre +:+ m +:+ post |})
   <= rank (classifyError {| message := m |}))%nat.
Proof.
  assert (forall kw, includes (toLowerCase m) kw = true ->
            includes (toLowerCase (pre +:+ m +:+ post)) kw = true) as Hmono.
  { intros kw Hin. apply includes_occurs. rewrite !toLowerCase_app.
    apply occurs_extend. by apply includes_occurs. }
  unfold classifyError. cbn [message].
  destruct (includes (toLowerCase m) "fetch") eqn:H1;
    [rewrite (Hmono _ H1); cbn; lia|].
  destruct (includes (toLowerCase m) "network") eqn:H2;
    [rewrite (Hmono _ H2), ?orb_true_r; cbn; lia|].
  destruct (includes (toLowerCase m) "timeout") eqn:H3;
    [rewrite (Hmono _ H3), ?orb_true_r; cbn; lia|].
  cbn [orb].
  destruct (includes (toLowerCase (pre +:+ m +:+ post)) "fetch"
            || includes (toLowerCase (pre +:+ m +:+ post)) "network"
            || includes (toLowerCase (pre +:+ m +:+ post)) "timeout"); [cbn; lia|].
  destruct (includes (toLowerCase m) "validation") eqn:H4;
    [rewrite (Hmono _ H4); cbn; lia|].
  destruct (includes (toLowerCase m) "invalid") eqn:H5;
    [rewrite (Hmono _ H5), ?orb_true_r; cbn; lia|].
  cbn [orb].
  destruct (includes (toLowerCase (pre +:+ m +:+ post)) "validation"
            || includes (toLowerCase (pre +:+ m +:+ post)) "invalid");
    [cbn; repeat case_match; cbn; lia|].
  destruct (includes (toLowerCase m) "500") eqn:H6;
    [rewrite (Hmono _ H6); cbn; lia|].
  destruct (includes (toLowerCase m) "server") eqn:H7;
    [rewrite (Hmono _ H7), ?orb_true_r; cbn; lia|].
  cbn [orb].
  destruct (includes (toLowerCase (pre +:+ m +:+ post)) "500"
            || includes (toLowerCase (pre +:+ m +:+ post)) "server"); cbn; lia.
Qed.

(** ** Rate limiter: the sweep, the bounds of the counter, window edges *)

Section LimiterMore.
Implicit Types (ip : string) (store : gmap string RateLimitRecord).

(** X10. The periodic sweep is not visible to the clients: for a request
    made at or after the time of a sweep, the decision of the limiter and
    the record it leaves for the client are the same as if the sweep had
    not taken place. *)
Theorem cleanup_is_transparent ip swept now store :
  swept <= now ->
  (checkRateLimit ip now (cleanup swept store)).1 = (checkRateLimit ip now store).1
  /\ (checkRateLimit ip now (cleanup swept store)).2 !! ip
     = (checkRateLimit ip now store).2 !! ip.
Proof.
  intros Hlater.
  destruct (store !! ip) as [record|] eqn:Hin.
  - destruct (Z.le_gt_cases swept (resetTime record)) as [Hkeep|Hexpired].
    + pose proof (cleanup_keeps ip swept store record Hin Hkeep) as Hclean.
      unfold checkRateLimit. rewrite Hclean, Hin.
      destruct (resetTime record <? now); cbn [fst snd]; [by rewrite !lookup_insert_eq|].
      destruct (10 <=? count record); cbn [fst snd]; [|by rewrite !lookup_insert_eq].
      by rewrite Hclean, Hin.
    + assert (cleanup swept store !! ip = None) as Hclean.
      { apply map_lookup_filter_None_2. right. intros r Hr. rewrite Hin in Hr.
        injection Hr as <-. cbn. lia. }
      unfold checkRateLimit. rewrite Hclean, Hin.
      destruct (Z.ltb_spec (resetTime record) now); [|lia]. cbn [fst snd].
      by rewrite !lookup_insert_eq.
  - assert (cleanup swept store !! ip = None) as Hclean.
    { apply map_lookup_filter_None_2. by left. }
    unfold checkRateLimit. rewrite Hclean, Hin. cbn [fst snd].
    by rewrite !lookup_insert_eq.
Qed.

Lemma checkRateLimit_bounds ip now store :
  map_Forall (fun _ record => 1 <= count record <= 10) store ->
  map_Forall (fun _ record => 1 <= count record <= 10) (checkRateLimit ip now store).2.
Proof.
  intros Hinv. unfold checkRateLimit.
  destruct (store !! ip) as [record|] eqn:Hin.
  - pose proof (Hinv ip record Hin) as Hrec. cbn in Hrec.
    destruct (resetTime record <? now); cbn [snd].
    { apply map_Forall_insert_2; [cbn; lia|done]. }
    destruct (Z.leb_spec 10 (count record)); cbn [snd]; [done|].
    apply map_Forall_insert_2; [cbn; lia|done].
  - apply map_Forall_insert_2; [cbn; lia|done].
Qed.

(** X11. The counter of a client never leaves the range from 1 to 10:
    this holds for every record of the store after any series of requests
    and sweeps that starts from the empty store. *)
Theorem rate_limit_count_bounds steps ip record :
  limiterRun steps ∅ !! ip = Some record -> 1 <= count record <= 10.
Proof.
  assert (forall store,
            map_Forall (fun _ r => 1 <= count r <= 10) store ->
            map_Forall (fun _ r => 1 <= count r <= 10) (limiterRun steps store)) as Hrun.
  { induction steps as [|[ip' now|now] steps IH]; intros store Hinv; [done|..];
      cbn [limiterRun]; apply IH.
    - by apply checkRateLimit_bounds.
    - intros key r [Hin _]%map_lookup_filter_Some. by apply (Hinv key). }
  intros Hin. apply (Hrun ∅ (map_Forall_empty _) ip record Hin).
Qed.

Lemma checkAll_app ip times1 times2 store :
  checkAll ip (times1 ++ times2) store
  = ((checkAll ip times1 store).1 ++ (checkAll ip times2 (checkAll ip times1 store).2).1,
     (checkAll ip times2 (checkAll ip times1 store).2).2).
Proof.
  revert store. induction times1 as [|now times1 IH]; intros store.
  { cbn. by destruct (checkAll ip times2 store). }
  cbn [app checkAll]. destruct (checkRateLimit ip now store) as [ok store1].
  rewrite IH. destruct (checkAll ip times1 store1) as [decisions store2]. cbn [fst snd].
  by destruct (checkAll ip times2 store2).
Qed.

(** The record of the client after requests inside its window. *)
Lemma checkAll_window_store ip (reset c : Z) times store :
  store !! ip = Some {| count := c; resetTime := reset |} ->
  Forall (fun now => now <= reset) times ->
  1 <= c <= 10 ->
  (checkAll ip times store).2 !! ip
  = Some {| count := Z.min 10 (c + Z.of_nat (length times)); resetTime := reset |}.
Proof.
  revert c store. induction times as [|now times IH]; intros c store Hrec Hwin Hc.
  { cbn. rewrite Hrec. do 2 f_equal. lia. }
  apply Forall_cons in Hwin as [Hnow Hwin]. cbn [checkAll].
  destruct (Z.eq_dec c 10) as [->|Hlt].
  - rewrite (checkRateLimit_full ip now store _ Hrec) by (cbn; lia).
    specialize (IH 10 store Hrec Hwin ltac:(lia)).
    destruct (checkAll ip times store) as [decisions store2]. cbn [snd] in *.
    rewrite IH. do 2 f_equal. cbn [length]. lia.
  - rewrite (checkRateLimit_counts ip now store _ Hrec) by (cbn; lia). cbn [count resetTime].
    specialize (IH (c + 1) (<[ip := {| count := c + 1; resetTime := reset |}]> store)).
    rewrite lookup_insert_eq in IH. specialize (IH eq_refl Hwin ltac:(lia)).
    destruct (checkAll ip times _) as [decisions store2]. cbn [snd] in *.
    rewrite IH. do 2 f_equal. cbn [length]. lia.
Qed.

(** X12. The windows are fixed, so twice the limit can pass around the
    edge of a window. After a request that starts a window at [t0], nine more
    requests up to [t0 + 60000], a request at any [t1 > t0 + 60000] and nine
    more up to [t1 + 60000] are all admitted: twenty in a row, nineteen of
    which may lie within two milliseconds. *)
Theorem rate_limit_edge_burst ip t0 t1 burst1 burst2 store :
  startsWindow ip t0 store ->
  length burst1 = 9%nat -> Forall (fun now => now <= t0 + 60000) burst1 ->
  t0 + 60000 < t1 ->
  length burst2 = 9%nat -> Forall (fun now => now <= t1 + 60000) burst2 ->
  (checkAll ip (t0 :: burst1 ++ t1 :: burst2) store).1 = replicate 20 true.
Proof.
  intros Hstart Hlen1 Hwin1 Hnext Hlen2 Hwin2.
  change (t0 :: burst1 ++ t1 :: burst2) with ((t0 :: burst1) ++ (t1 :: burst2)).
  rewrite checkAll_app. cbn [fst].
  assert (checkAll ip (t0 :: burst1) store
          = (replicate 10 true,
             (checkAll ip burst1
                (<[ip := {| count := 1; resetTime := t0 + 60000 |}]> store)).2)) as ->.
  { cbn [checkAll]. rewrite (checkRateLimit_fresh ip t0 store Hstart).
    pose proof (checkAll_window ip (t0 + 60000) 1 burst1
                  (<[ip := {| count := 1; resetTime := t0 + 60000 |}]> store)) as Hdec.
    rewrite lookup_insert_eq in Hdec. specialize (Hdec eq_refl Hwin1 ltac:(lia)).
    destruct (checkAll ip burst1 _) as [decisions store2]. cbn [fst snd] in *.
    rewrite Hdec, Hlen1. reflexivity. }
  cbn [fst snd].
  pose proof (checkAll_window_store ip (t0 + 60000) 1 burst1
                (<[ip := {| count := 1; resetTime := t0 + 60000 |}]> store)) as Hstore.
  rewrite lookup_insert_eq in Hstore. specialize (Hstore eq_refl Hwin1 ltac:(lia)).
  set (store1 := (checkAll ip burst1 _).2) in *.
  cbn [checkAll]. rewrite (checkRateLimit_fresh ip t1 store1).
  2:{ right. eexists. split; [exact Hstore|]. cbn. lia. }
  pose proof (checkAll_window ip (t1 + 60000) 1 burst2
                (<[ip := {| count := 1; resetTime := t1 + 60000 |}]> store1)) as Hdec.
  rewrite lookup_insert_eq in Hdec. specialize (Hdec eq_refl Hwin2 ltac:(lia)).
  destruct (checkAll ip burst2 _) as [decisions store2]. cbn [fst] in *.
  rewrite Hdec, Hlen2. reflexivity.
Qed.
End LimiterMore.

Lemma cleanup_is_transparent_witness :
  (checkRateLimit "203.0.113.7" 70000
     (cleanup 65000 (checkRateLimit "203.0.113.7" 1000 ∅).2)).1
  = (checkRateLimit "203.0.113.7" 70000 (checkRateLimit "203.0.113.7" 1000 ∅).2).1
  /\ (checkRateLimit "203.0.113.7" 70000
        (cleanup 65000 (checkRateLimit "203.0.113.7" 1000 ∅).2)).2 !! "203.0.113.7"%string
     = (checkRateLimit "203.0.113.7" 70000 (checkRateLimit "203.0.113.7" 1000 ∅).2).2
         !! "203.0.113.7"%string.
Proof.
  apply (cleanup_is_transparent "203.0.113.7" 65000 70000
           (checkRateLimit "203.0.113.7" 1000 ∅).2).
  lia.
Defined.

Lemma rate_limit_count_bounds_witness :
  1 <= count {| count := 2; resetTime := 61000 |} <= 10.
Proof.
  apply (rate_limit_count_bounds
           [Checked "203.0.113.7" 1000; Swept 2000; Checked "203.0.113.7" 3000]
           "203.0.113.7" {| count := 2; resetTime := 61000 |}).
  vm_compute. reflexivity.
Defined.

Lemma rate_limit_edge_burst_witness :
  (checkAll "203.0.113.7"
     (1000 :: replicate 9 61000 ++ 61001 :: replicate 9 61001) ∅).1
  = replicate 20 true.
Proof.
  apply (rate_limit_edge_burst "203.0.113.7" 1000 61001 (replicate 9 61000)
           (replicate 9 61001) ∅).
  - left. apply lookup_empty.
  - reflexivity.
  - repeat constructor; lia.
  - lia.
  - reflexivity.
  - repeat constructor; lia.
Defined.

(** ** The endpoint under a series of requests *)

Section EndpointMore.
Variable isURL : string -> bool.
Implicit Types (request : NextRequest.t) (rt : Runtime) (srv : Server).

Ltac step_try :=
  unfold POST, tryBlock, mbind, Try_bind, mret, Try_ret, rateLimited, orThrow,
    existsSync, mkdirSync, appendFileSync.

(** Every request is counted, whatever happens to it afterwards. *)
Lemma POST_counted request rt srv :
  rateLimitStore (POST isURL request rt srv).2 = counted request rt srv.
Proof.
  unfold counted. step_try.
  destruct (checkRateLimit _ _ _) as [[] store]; cbn; [|done].
  destruct (NextRequest.json request) as [body|]; [|done].
  destruct (ErrorLogSchema isURL body) as [validatedData|]; [|done]. cbn.
  destruct (logDirExists (disk srv)) eqn:Hdir; cbn.
  - rewrite Hdir. by destruct (appendFileSyncFails rt).
  - destruct (mkdirSyncFails rt); [done|]. cbn. by destruct (appendFileSyncFails rt).
Qed.

(** The answer 200 goes with exactly one new line in the log, any other
    answer with none. *)
Lemma POST_lines request rt srv :
  lineFeeds (logFile (disk (POST isURL request rt srv).2))
  = (lineFeeds (logFile (disk srv))
     + if (NextResponse.status (POST isURL request rt srv).1 =? 200)%Z then 1 else 0)%nat.
Proof.
  assert (admitted request rt srv \/ ~ admitted request rt srv) as [Hok|Hrej].
  { unfold admitted. destruct (checkRateLimit _ _ _).1; [by left|by right]. }
  2:{ rewrite POST_rejected by done. cbn. lia. }
  destruct (NextRequest.json request) as [body|] eqn:Hjson.
  2:{ rewrite POST_invalid; [cbn; lia|done|]. unfold invalidBody. by rewrite Hjson. }
  destruct (ErrorLogSchema isURL body) as [validatedData|] eqn:Hparse.
  2:{ rewrite POST_invalid; [cbn; lia|done|]. unfold invalidBody. by rewrite Hjson. }
  assert (persists rt srv \/ ~ persists rt srv) as [Hfs|Hfs].
  { unfold persists.
    destruct (logDirExists (disk srv)), (mkdirSyncFails rt), (appendFileSyncFails rt);
      first [by left | right; intros [Hmk Happ]; first [discriminate Happ | by specialize (Hmk eq_refl)]]. }
  - rewrite (POST_valid isURL request rt srv body validatedData) by done.
    cbn [fst snd disk logFile]. rewrite !lineFeeds_app, lineFeeds_stringifyErrorLog.
    change (lineFeeds (String lineFeed "")) with 1%nat. cbn. lia.
  - destruct (POST_unpersisted isURL _ _ _ _ _ Hok Hjson Hparse Hfs) as [-> ->]. cbn. lia.
Qed.

(** X14. The log holds one line per accepted report: after any series of
    requests, the number of line feeds in the log file has grown by the
    number of answers with status 200. *)
Theorem log_lines_match_accepted requests srv :
  lineFeeds (logFile (disk (POSTs isURL requests srv).2))
  = (lineFeeds (logFile (disk srv)) + accepted (POSTs isURL requests srv).1)%nat.
Proof.
  revert srv. induction requests as [|[request rt] requests IH]; intros srv.
  { cbn. lia. }
  cbn [POSTs]. pose proof (POST_lines request rt srv) as Hone.
  destruct (POST isURL request rt srv) as [response srv1]. cbn [fst snd] in Hone.
  specialize (IH srv1). destruct (POSTs isURL requests srv1) as [responses srv2].
  cbn [fst snd] in *. rewrite IH, Hone. unfold accepted. cbn [List.filter].
  destruct (NextResponse.status response =? 200); cbn [length]; lia.
Qed.

(** The store after a series of requests of one client is the store after
    the checks of the limiter alone. *)
Lemma POSTs_counted ip requests srv :
  Forall (fun q => clientIp q.1 = ip) requests ->
  rateLimitStore (POSTs isURL requests srv).2
  = (checkAll ip ((fun q => dateNow q.2) <$> requests) (rateLimitStore srv)).2.
Proof.
  revert srv. induction requests as [|[request rt] requests IH]; intros srv Hall; [done|].
  apply Forall_cons in Hall as [Hip Hall]. cbn in Hip.
  cbn [POSTs fmap list_fmap checkAll]. cbn [fst snd].
  pose proof (POST_counted request rt srv) as Hone. unfold counted in Hone. rewrite Hip in Hone.
  destruct (POST isURL request rt srv) as [response srv1]. cbn [snd] in Hone.
  specialize (IH srv1 Hall). destruct (POSTs isURL requests srv1) as [responses srv2].
  cbn [snd] in *. rewrite IH, Hone.
  destruct (checkRateLimit ip (dateNow rt) (rateLimitStore srv)) as [ok store1]. cbn [snd].
  by destruct (checkAll ip _ store1).
Qed.

(** X13. Requests are counted before their body is looked at. After a
    request that starts a window and nine more of the same client inside
    it, whatever their bodies and whether or not the disk could be written,
    a further request of that client inside the window is answered with 429,
    even when its body is valid. *)
Theorem invalid_requests_use_up_the_window ip first rt0 others srv request rt :
  clientIp first = ip ->
  startsWindow ip (dateNow rt0) (rateLimitStore srv) ->
  length others = 9%nat ->
  Forall (fun q => clientIp q.1 = ip /\ dateNow q.2 <= dateNow rt0 + 60000) others ->
  clientIp request = ip ->
  dateNow rt <= dateNow rt0 + 60000 ->
  (POST isURL request rt (POSTs isURL ((first, rt0) :: others) srv).2).1
  = {| NextResponse.status := 429; NextResponse.success := false;
       NextResponse.error := Some "Rate limit exceeded"%string |}.
Proof.
  intros Hfirst Hstart Hlen Hothers Hip Hin.
  rewrite POST_rejected; [done|]. unfold admitted.
  rewrite (POSTs_counted ip).
  2:{ constructor; [done|]. eapply Forall_impl; [exact Hothers|]. by intros q [? _]. }
  cbn [fmap list_fmap checkAll snd].
  rewrite (checkRateLimit_fresh ip (dateNow rt0) _ Hstart).
  pose proof (checkAll_window_store ip (dateNow rt0 + 60000) 1
                ((fun q => dateNow q.2) <$> others)
                (<[ip := {| count := 1; resetTime := dateNow rt0 + 60000 |}]>
                   (rateLimitStore srv))) as Hstore.
  rewrite lookup_insert_eq in Hstore.
  specialize (Hstore eq_refl).
  rewrite length_fmap, Hlen in Hstore.
  destruct (checkAll ip _ _) as [decisions store2] eqn:Hrun. cbn [snd] in *.
  rewrite Hip.
  rewrite (checkRateLimit_full ip (dateNow rt) store2
             {| count := 10; resetTime := dateNow rt0 + 60000 |}); [done| |cbn; lia|cbn; lia].
  apply Hstore; [|lia]. apply Forall_fmap. eapply Forall_impl; [exact Hothers|].
  by intros q [_ ?].
Qed.
End EndpointMore.

Lemma invalid_requests_use_up_the_window_witness :
  (POST sampleIsURL (sampleRequest (sampleBody "boom")) sampleRuntime
     (POSTs sampleIsURL
        ((sampleRequest JNull, sampleRuntime)
           :: replicate 9 (sampleRequest (JObject []), fullDisk)) freshServer).2).1
  = {| NextResponse.status := 429; NextResponse.success := false;
       NextResponse.error := Some "Rate limit exceeded"%string |}.
Proof.
  apply (invalid_requests_use_up_the_window sampleIsURL "203.0.113.7"
           (sampleRequest JNull) sampleRuntime
           (replicate 9 (sampleRequest (JObject []), fullDisk)) freshServer
           (sampleRequest (sampleBody "boom")) sampleRuntime).
  - reflexivity.
  - left. apply lookup_empty.
  - reflexivity.
  - repeat constructor; cbn; lia.
  - reflexivity.
  - cbn. lia.
Defined.

(** Three reports, the second without a message: two lines in the log. *)
Example two_of_three_logged :
  let run :=
    POSTs sampleIsURL
      [(sampleRequest (sampleBody "boom"), sampleRuntime);
       (sampleRequest (JObject sampleMembers), sampleRuntime);
       (sampleRequest (sampleBody "bang"), sampleRuntime)] freshServer in
  NextResponse.status <$> run.1 = [200; 400; 200]
  /\ lineFeeds (logFile (disk run.2)) = 2%nat.
Proof. vm_compute. done. Qed.

(** ** The schema: keys it does not name, members it requires *)

Section SchemaMore.
Variable isURL : string -> bool.

Lemma member_skip key k (v : JSON) pre post :
  k <> key -> member key (pre ++ (k, v) :: post) = member key (pre ++ post).
Proof.
  intros Hne. induction pre as [|[k' v'] pre IH]; cbn [app member].
  - by rewrite decide_False.
  - by rewrite IH.
Qed.

(** X15. Members that the schema does not name are dropped: a body with a
    member under any other key, wherever it stands, is validated exactly as
    the body without it, so that the member never reaches the log. *)
Theorem schema_drops_unknown_keys k (v : JSON) pre post :
  k ∉ schemaKeys ->
  ErrorLogSchema isURL (JObject (pre ++ (k, v) :: post))
  = ErrorLogSchema isURL (JObject (pre ++ post)).
Proof.
  intros Hnew. unfold ErrorLogSchema.
  rewrite !(member_skip _ k v pre post); [done|..];
    intros ->; apply Hnew; unfold schemaKeys; set_solver.
Qed.

(** X16. The schema requires [message], [url], [timestamp] and [type]: a
    body without any one of them is rejected. It is also rejected when it
    is not an object, when [type] is a string other than error and
    unhandledrejection, and when one of the optional members is present
    with a value of another type, [null] included. *)
Theorem schema_rejects members :
  (forall key, key ∈ ["message"; "url"; "timestamp"; "type"] ->
     member key members = None -> ErrorLogSchema isURL (JObject members) = None)
  /\ (forall s, member "type" members = Some (JString s) ->
        s <> "error"%string -> s <> "unhandledrejection"%string ->
        ErrorLogSchema isURL (JObject members) = None)
  /\ (forall key v, key ∈ ["stack"; "browser"; "os"; "userAgent"] ->
        member key members = Some v -> (forall s, v <> JString s) ->
        ErrorLogSchema isURL (JObject members) = None)
  /\ (forall key v, key ∈ ["lineNumber"; "columnNumber"] ->
        member key members = Some v -> (forall n, v <> JNumber n) ->
        ErrorLogSchema isURL (JObject members) = None)
  /\ ErrorLogSchema isURL JNull = None
  /\ (forall items, ErrorLogSchema isURL (JArray items) = None)
  /\ (forall s, ErrorLogSchema isURL (JString s) = None).
Proof.
  split; [|split; [|split; [|split; [|done]]]].
  - intros key Hkey Hmissing. unfold ErrorLogSchema.
    repeat (apply elem_of_cons in Hkey as [->|Hkey]); [..|by apply elem_of_nil in Hkey];
      rewrite Hmissing; cbn [z.string z.number z.enum]; unfold mbind, option_bind;
      try done; repeat (case_match; try done).
  - intros s Htype Hne1 Hne2. unfold ErrorLogSchema. rewrite Htype. unfold z.enum.
    rewrite bool_decide_eq_false_2.
    2:{ intros [->|[->|Hin%elem_of_nil]%elem_of_cons]%elem_of_cons; done. }
    unfold mbind, option_bind. try done; repeat (case_match; try done).
  - intros key v Hkey Hmember Hnot. unfold ErrorLogSchema.
    assert (z.optional z.string (Some v) = None) as Hbad.
    { destruct v; try done. by destruct (Hnot s). }
    repeat (apply elem_of_cons in Hkey as [->|Hkey]); [..|by apply elem_of_nil in Hkey];
      rewrite Hmember, Hbad; unfold mbind, option_bind;
      try done; repeat (case_match; try done).
  - intros key v Hkey Hmember Hnot. unfold ErrorLogSchema.
    assert (z.optional z.number (Some v) = None) as Hbad.
    { destruct v; try done. by destruct (Hnot n). }
    repeat (apply elem_of_cons in Hkey as [->|Hkey]); [..|by apply elem_of_nil in Hkey];
      rewrite Hmember, Hbad; unfold mbind, option_bind;
      try done; repeat (case_match; try done).
Qed.
End SchemaMore.

Lemma schema_drops_unknown_keys_witness :
  ErrorLogSchema sampleIsURL
    (JObject ([("message", JString "boom")] ++ ("componentStack", JString "at App") :: sampleMembers))
  = ErrorLogSchema sampleIsURL (JObject ([("message", JString "boom")] ++ sampleMembers)).
Proof.
  apply (schema_drops_unknown_keys sampleIsURL "componentStack" (JString "at App")
           [("message", JString "boom")] sampleMembers).
  intros Hin. unfold schemaKeys in Hin.
  repeat (apply elem_of_cons in Hin as [Heq|Hin]; [discriminate Heq|]).
  by apply elem_of_nil in Hin.
Defined.

(** ** Client reports at the endpoint *)

Section ClientReports.
Variable isURL : string -> bool.

Lemma member_app key (l1 l2 : list (string * JSON)) :
  member key (l1 ++ l2) = match member key l1 with Some v => Some v | None => member key l2 end.
Proof.
  induction l1 as [|[k v] l1 IH]; [done|]. cbn [app member]. by destruct (decide (k = key)).
Qed.

Lemma member_sent {A : Type} key k (toJSON : A -> JSON) (v : option A) :
  member key (sent k toJSON v) = if decide (k = key) then toJSON <$> v else None.
Proof. destruct v; cbn [sent member fmap option_fmap option_map]; by destruct (decide (k = key)). Qed.

(** What the schema finds under each of its keys in a report that the
    client sent. *)
Lemma sentBody_members (d : ErrorData.t) members :
  sentBody d = JObject members ->
  member "message" members = Some (JString (ErrorData.message d))
  /\ member "stack" members = JString <$> ErrorData.stack d
  /\ member "url" members = Some (JString (ErrorData.url d))
  /\ member "lineNumber" members = JNumber <$> ErrorData.lineNumber d
  /\ member "columnNumber" members = JNumber <$> ErrorData.columnNumber d
  /\ member "browser" members = JString <$> ErrorData.browser d
  /\ member "os" members = JString <$> ErrorData.os d
  /\ member "timestamp" members = Some (JNumber (ErrorData.timestamp d))
  /\ member "type" members = Some (JString (ErrorData.type d))
  /\ member "userAgent" members = JString <$> ErrorData.userAgent d.
Proof.
  intros [= <-].
  repeat split;
    repeat first
      [ rewrite member_app
      | rewrite member_sent
      | progress cbn [app member]
      | case_decide; [try discriminate|try done]
      | case_match; try done ];
    done.
Qed.

Lemma sentBody_validation (d : ErrorData.t) :
  ErrorLogSchema isURL (sentBody d)
  = if (String.length (ErrorData.message d) <=? 1000)%nat
       && isURL (ErrorData.url d)
       && bool_decide (ErrorData.type d ∈ ["error"; "unhandledrejection"]%string)
    then Some (storedReport d)
    else None.
Proof.
  destruct (sentBody d) as [| | | | |members] eqn:Hbody; try discriminate Hbody.
  destruct (sentBody_members d members Hbody)
    as (H1 & H2 & H3 & H4 & H5 & H6 & H7 & H8 & H9 & H10).
  unfold ErrorLogSchema. rewrite H1, H2, H3, H4, H5, H6, H7, H8, H9, H10.
  unfold storedReport, z.max, z.url, z.enum. cbn [z.string z.number mbind option_bind].
  destruct (String.length (ErrorData.message d) <=? 1000)%nat; [|done].
  cbn [andb mbind option_bind].
  assert (forall (o : option string), z.optional z.string (JString <$> o) = Some o) as Hs
    by (by intros []).
  assert (forall (o : option Z), z.optional z.number (JNumber <$> o) = Some o) as Hn
    by (by intros []).
  rewrite !Hs, !Hn. cbn [mbind option_bind].
  destruct (isURL (ErrorData.url d)); [|done]. cbn [andb mbind option_bind].
  destruct (bool_decide _); done.
Qed.

(** X17. Which reports of the client the endpoint accepts. The report that
    [handleGlobalError] or [handleUnhandledRejection] builds and sends passes
    the schema exactly when its message has at most 1000 characters and the
    address of the page is a well-formed URL; what is then stored is the
    report as built, whole and without truncation. A report with a longer
    message is rejected. *)
Theorem client_reports_at_the_schema :
  (forall event page,
     ErrorLogSchema isURL (sentBody (globalErrorData event page))
     = if (String.length (ErrorEvent.message event) <=? 1000)%nat
          && isURL (default ""%string (href page))
       then Some (storedReport (globalErrorData event page))
       else None)
  /\ (forall reasonMessage reasonStack page,
        ErrorLogSchema isURL (sentBody (rejectionErrorData reasonMessage reasonStack page))
        = if (String.length (orElse reasonMessage "Unhandled Promise Rejection") <=? 1000)%nat
             && isURL (default ""%string (href page))
          then Some (storedReport (rejectionErrorData reasonMessage reasonStack page))
          else None).
Proof.
  split.
  - intros event page. rewrite sentBody_validation. unfold globalErrorData.
    cbn [ErrorData.message ErrorData.url ErrorData.type].
    rewrite bool_decide_eq_true_2 by (apply elem_of_cons; by left).
    by rewrite andb_true_r.
  - intros reasonMessage reasonStack page. rewrite sentBody_validation.
    unfold rejectionErrorData. cbn [ErrorData.message ErrorData.url ErrorData.type].
    rewrite bool_decide_eq_true_2
      by (apply elem_of_cons; right; apply elem_of_cons; by left).
    by rewrite andb_true_r.
Qed.
End ClientReports.

Example long_client_message_rejected :
  ErrorLogSchema sampleIsURL (sentBody (globalErrorData (sampleEvent (xs 1001)) samplePage)) = None
  /\ ErrorLog.message
       <$> ErrorLogSchema sampleIsURL (sentBody (globalErrorData (sampleEvent (xs 300)) samplePage))
     = Some (xs 300).
Proof. split; vm_compute; reflexivity. Qed.

(** ** Client: truncation of notifications *)

Lemma substring_prefix (n : nat) (s : string) :
  exists rest, s = String.substring 0 n s +:+ rest
               /\ String.length (String.substring 0 n s) = Nat.min n (String.length s).
Proof.
  revert s. induction n as [|n IH]; intros s.
  - exists s. by destruct s.
  - destruct s as [|c s]; [by exists ""%string|].
    destruct (IH s) as (rest & Hrest & Hlen). exists rest. cbn [String.substring].
    rewrite append_cons. cbn [String.length]. rewrite Hlen. split; [|done]. by rewrite <- Hrest.
Qed.

(** X20. With a maximum of at least 3, [truncateMessage] never returns more
    than the maximum: a message within it comes back unchanged, and a longer
    one comes back as its first [maxLength - 3] characters followed by three
    dots, exactly [maxLength] characters long. Truncating twice is the same
    as truncating once. *)
Theorem truncateMessage_bound (m : string) (maxLength : option Z) :
  3 <= default 200 maxLength ->
  Z.of_nat (String.length (truncateMessage m maxLength)) <= default 200 maxLength
  /\ (Z.of_nat (String.length m) <= default 200 maxLength -> truncateMessage m maxLength = m)
  /\ (default 200 maxLength < Z.of_nat (String.length m) ->
      Z.of_nat (String.length (truncateMessage m maxLength)) = default 200 maxLength
      /\ exists kept dropped,
           m = kept +:+ dropped
           /\ Z.of_nat (String.length kept) = default 200 maxLength - 3
           /\ truncateMessage m maxLength = kept +:+ "...")
  /\ truncateMessage (truncateMessage m maxLength) maxLength = truncateMessage m maxLength.
Proof.
  intros Hmax. unfold truncateMessage. set (L := default 200 maxLength) in *.
  destruct (Z.leb_spec (Z.of_nat (String.length m)) L) as [Hshort|Hlong].
  { split; [done|]. split; [done|]. split; [lia|].
    destruct (Z.leb_spec (Z.of_nat (String.length m)) L); [done|lia]. }
  unfold substringTo.
  destruct (substring_prefix (Z.to_nat (L - 3)) m) as (rest & Hrest & Hlen).
  assert (Z.of_nat (String.length (String.substring 0 (Z.to_nat (L - 3)) m +:+ "...")) = L)
    as Htotal.
  { rewrite length_append, Hlen. cbn [String.length]. lia. }
  split; [lia|]. split; [lia|]. split.
  - intros _. split; [exact Htotal|].
    exists (String.substring 0 (Z.to_nat (L - 3)) m), rest.
    split; [exact Hrest|]. split; [lia|done].
  - rewrite Htotal. destruct (Z.leb_spec L L); [done|lia].
Qed.

(** X21. With a maximum below 3 the bound is not kept: every message
    longer than the maximum comes back as three dots, which is longer than
    the maximum; with a negative maximum that is every message. *)
Theorem truncateMessage_small_maximum (m : string) (maxLength : option Z) :
  default 200 maxLength < 3 ->
  default 200 maxLength < Z.of_nat (String.length m) ->
  truncateMessage m maxLength = "..."%string
  /\ default 200 maxLength < Z.of_nat (String.length (truncateMessage m maxLength)).
Proof.
  intros Hsmall Hlong. unfold truncateMessage. set (L := default 200 maxLength) in *.
  destruct (Z.leb_spec (Z.of_nat (String.length m)) L); [lia|].
  unfold substringTo.
  destruct (substring_prefix (Z.to_nat (L - 3)) m) as (rest & _ & Hlen).
  replace (Z.to_nat (L - 3)) with 0%nat in * by lia.
  destruct (String.substring 0 0 m) as [|c s]; [|cbn in Hlen; lia].
  rewrite append_nil. split; [done|]. cbn. lia.
Qed.

Lemma truncateMessage_bound_witness :
  Z.of_nat (String.length (truncateMessage (xs 250) None)) <= 200
  /\ (Z.of_nat (String.length (xs 250)) <= 200 -> truncateMessage (xs 250) None = xs 250)
  /\ (200 < Z.of_nat (String.length (xs 250)) ->
      Z.of_nat (String.length (truncateMessage (xs 250) None)) = 200
      /\ exists kept dropped,
           xs 250 = kept +:+ dropped
           /\ Z.of_nat (String.length kept) = 200 - 3
           /\ truncateMessage (xs 250) None = kept +:+ "...")
  /\ truncateMessage (truncateMessage (xs 250) None) None = truncateMessage (xs 250) None.
Proof.
  apply (truncateMessage_bound (xs 250) None). cbn. lia.
Defined.

Lemma truncateMessage_small_maximum_witness :
  truncateMessage "Saved" (Some 2) = "..."%string
  /\ 2 < Z.of_nat (String.length (truncateMessage "Saved" (Some 2))).
Proof.
  apply (truncateMessage_small_maximum "Saved" (Some 2)).
  - cbn. lia.
  - cbn. lia.
Defined.

(** ** Client: browser and operating system *)

Ltac by_occurrence H :=
  first [apply includes_occurs in H | apply includes_false in H].

(** X22. The order of the browser tests. A user agent that names Edg is
    never reported as Chrome and one that names Chrome never as Safari; one
    that names both Chrome and Edg, as Edge on a desktop does, is reported as
    Edge unless it also names Firefox. Opera is reported only for a user
    agent that names none of Chrome, Firefox, Safari and Edg. *)
Theorem getBrowserInfo_browser (userAgent : string) :
  (occurs "Edg" userAgent ->
   BrowserInfo.browser (getBrowserInfo (Some userAgent)) <> "Chrome"%string)
  /\ (occurs "Chrome" userAgent ->
      BrowserInfo.browser (getBrowserInfo (Some userAgent)) <> "Safari"%string)
  /\ (occurs "Chrome" userAgent -> occurs "Edg" userAgent -> ~ occurs "Firefox" userAgent ->
      BrowserInfo.browser (getBrowserInfo (Some userAgent)) = "Edge"%string)
  /\ (BrowserInfo.browser (getBrowserInfo (Some userAgent)) = "Opera"%string ->
      occurs "Opera" userAgent
      /\ ~ occurs "Chrome" userAgent /\ ~ occurs "Firefox" userAgent
      /\ ~ occurs "Safari" userAgent /\ ~ occurs "Edg" userAgent).
Proof.
  cbn [getBrowserInfo BrowserInfo.browser].
  destruct (includes userAgent "Chrome") eqn:HC, (includes userAgent "Edg") eqn:HE,
    (includes userAgent "Firefox") eqn:HF, (includes userAgent "Safari") eqn:HS,
    (includes userAgent "Opera") eqn:HO;
    by_occurrence HC; by_occurrence HE; by_occurrence HF; by_occurrence HS; by_occurrence HO;
    cbn; repeat split; intros; first [discriminate | tauto | reflexivity].
Qed.

(** X23. The order of the operating system tests. Android is reported only
    for a user agent that names none of Windows, Mac and Linux, and iOS only
    for one that names none of these and not Android: a user agent that
    names Linux, as those of Android devices do, is reported as Linux (or
    Windows or macOS), and one that names Mac, as those of iPhones do, as
    macOS (or Windows). *)
Theorem getBrowserInfo_os (userAgent : string) :
  (BrowserInfo.os (getBrowserInfo (Some userAgent)) = "Android"%string <->
   occurs "Android" userAgent /\ ~ occurs "Windows" userAgent
   /\ ~ occurs "Mac" userAgent /\ ~ occurs "Linux" userAgent)
  /\ (BrowserInfo.os (getBrowserInfo (Some userAgent)) = "iOS"%string <->
      occurs "iOS" userAgent /\ ~ occurs "Windows" userAgent /\ ~ occurs "Mac" userAgent
      /\ ~ occurs "Linux" userAgent /\ ~ occurs "Android" userAgent)
  /\ (occurs "Linux" userAgent ->
      BrowserInfo.os (getBrowserInfo (Some userAgent)) ∈ ["Windows"; "macOS"; "Linux"]%string)
  /\ (occurs "Mac" userAgent ->
      BrowserInfo.os (getBrowserInfo (Some userAgent)) ∈ ["Windows"; "macOS"]%string).
Proof.
  cbn [getBrowserInfo BrowserInfo.os].
  destruct (includes userAgent "Windows") eqn:HW, (includes userAgent "Mac") eqn:HM,
    (includes userAgent "Linux") eqn:HL, (includes userAgent "Android") eqn:HA,
    (includes userAgent "iOS") eqn:HI;
    by_occurrence HW; by_occurrence HM; by_occurrence HL; by_occurrence HA; by_occurrence HI;
    cbn; repeat split; intros;
    first [discriminate | tauto
          | repeat first [apply list_elem_of_here | apply list_elem_of_further]].
Qed.

Example browsers_of_samples :
  getBrowserInfo (Some chromeUA)
  = {| BrowserInfo.browser := "Chrome"; BrowserInfo.os := "Windows" |}
  /\ getBrowserInfo (Some edgeUA)
     = {| BrowserInfo.browser := "Edge"; BrowserInfo.os := "Windows" |}
  /\ getBrowserInfo (Some androidUA)
     = {| BrowserInfo.browser := "Chrome"; BrowserInfo.os := "Linux" |}.
Proof. repeat split; vm_compute; reflexivity. Qed.

(** ** Backend error middleware *)

Lemma lineFeeds_stringifyBackendError message stack request now :
  lineFeeds (stringifyBackendError message stack request now) = 0%nat.
Proof.
  apply lineFeeds_stringifyObject.
  repeat first
    [ apply Forall_app; split
    | apply lineFeeds_present; apply lineFeeds_quote
    | apply Forall_cons; split; [first [apply lineFeeds_quote | apply lineFeeds_showNumber]|]
    | apply Forall_nil_2 ].
Qed.

Section MiddlewareFacts.
Context {W R : Type}.
Implicit Types (handler : Handled.t -> W -> result R Caught * W) (request : Handled.t)
  (rt : BackendRuntime) (w : W) (disk : LogDisk).

(** An answer of the handler goes through untouched and nothing is
    logged. *)
Lemma withErrorHandler_passes handler request rt w disk response w1 :
  handler request w = (Resolved response, w1) ->
  withErrorHandler handler request rt w disk = (Passed response, w1, disk).
Proof. intros Hok. unfold withErrorHandler. by rewrite Hok. Qed.

(** X18. When the wrapped handler throws something that is not nullish and
    the file system lets the middleware write, the answer has status 500;
    outside development its text is the fixed sentence, whatever was thrown,
    and in development it is the message of what was thrown. The backend log
    grows by exactly one line, which records the message, and the log of the
    endpoint is not touched. *)
Theorem withErrorHandler_answers_500 handler request rt w disk message stack w1 :
  handler request w = (Rejected (Thing message stack), w1) ->
  (logDirExists (frontend disk) = false -> backendMkdirFails rt = false) ->
  backendAppendFails rt = false ->
  exists disk1,
    withErrorHandler handler request rt w disk
    = (Answered
         {| NextResponse.status := 500; NextResponse.success := false;
            NextResponse.error :=
              if development rt then message
              else Some "Internal Server Error. Please try again later."%string |},
       w1, disk1)
    /\ backendLog disk1
       = backendLog disk
         +:+ (stringifyBackendError message stack (Some request) (backendNow rt)
              +:+ String lineFeed "")
    /\ lineFeeds (stringifyBackendError message stack (Some request) (backendNow rt)) = 0%nat
    /\ logFile (frontend disk1) = logFile (frontend disk).
Proof.
  intros Hthrow Hmkdir Happend. unfold withErrorHandler, logBackendError.
  rewrite Hthrow, Happend.
  destruct (logDirExists (frontend disk)) eqn:Hdir; cbn [negb andb].
  - eexists. split; [reflexivity|]. cbn. split; [done|].
    split; [apply lineFeeds_stringifyBackendError|done].
  - rewrite Hmkdir by done. eexists. split; [reflexivity|]. cbn. split; [done|].
    split; [apply lineFeeds_stringifyBackendError|done].
Qed.

(** X19. The middleware can itself throw. When the handler throws [null]
    or [undefined], or when the log directory cannot be created or the
    append fails, no answer is produced: the exception leaves the
    middleware, and neither log file has changed. *)
Theorem withErrorHandler_escapes handler request rt w disk error w1 :
  handler request w = (Rejected error, w1) ->
  error = Nullish
  \/ (logDirExists (frontend disk) = false /\ backendMkdirFails rt = true)
  \/ backendAppendFails rt = true ->
  (withErrorHandler handler request rt w disk).1.1 = Escaped
  /\ backendLog (withErrorHandler handler request rt w disk).2 = backendLog disk
  /\ logFile (frontend (withErrorHandler handler request rt w disk).2)
     = logFile (frontend disk).
Proof.
  intros Hthrow Hwhy. unfold withErrorHandler, logBackendError. rewrite Hthrow.
  destruct error as [|message stack]; [done|].
  destruct Hwhy as [Hnull|[[Hdir Hmk]|Happ]]; [done|by rewrite Hdir, Hmk|].
  rewrite Happ. by destruct (negb (logDirExists (frontend disk)) && backendMkdirFails rt).
Qed.
End MiddlewareFacts.

Lemma withErrorHandler_answers_500_witness :
  exists disk1,
    withErrorHandler throwingHandler sampleHandled production () emptyLogs
    = (Answered
         {| NextResponse.status := 500; NextResponse.success := false;
            NextResponse.error := Some "Internal Server Error. Please try again later."%string |},
       (), disk1)
    /\ backendLog disk1
       = backendLog emptyLogs
         +:+ (stringifyBackendError (Some "This is a test runtime error"%string) None
                (Some sampleHandled) (backendNow production)
              +:+ String lineFeed "")
    /\ lineFeeds (stringifyBackendError (Some "This is a test runtime error"%string) None
                    (Some sampleHandled) (backendNow production)) = 0%nat
    /\ logFile (frontend disk1) = logFile (frontend emptyLogs).
Proof.
  apply (withErrorHandler_answers_500 throwingHandler sampleHandled production () emptyLogs
           (Some "This is a test runtime error"%string) None ()).
  - reflexivity.
  - reflexivity.
  - reflexivity.
Defined.

Lemma withErrorHandler_escapes_witness :
  (withErrorHandler nullHandler sampleHandled production () emptyLogs).1.1 = Escaped
  /\ backendLog (withErrorHandler nullHandler sampleHandled production () emptyLogs).2
     = backendLog emptyLogs
  /\ logFile (frontend (withErrorHandler nullHandler sampleHandled production () emptyLogs).2)
     = logFile (frontend emptyLogs).
Proof.
  apply (withErrorHandler_escapes nullHandler sampleHandled production () emptyLogs Nullish ()).
  - reflexivity.
  - left. reflexivity.
Defined.

(** ** More on the window, the log and the open breaker *)

Section WindowAndLog.
Variable isURL : string -> bool.

(** X24. The window does not slide. After a request that starts a window
    at [t0], however many further requests the client makes up to
    [t0 + 60000], a request at any later time is admitted and starts a new
    window with [count = 1]. *)
Theorem rate_limit_window_is_fixed ip t0 t1 times (store : gmap string RateLimitRecord) :
  startsWindow ip t0 store ->
  Forall (fun now => now <= t0 + 60000) times ->
  t0 + 60000 < t1 ->
  (checkRateLimit ip t1 (checkAll ip (t0 :: times) store).2).1 = true
  /\ (checkRateLimit ip t1 (checkAll ip (t0 :: times) store).2).2 !! ip
     = Some {| count := 1; resetTime := t1 + 60000 |}.
Proof.
  intros Hstart Hwin Hlater. cbn [checkAll].
  rewrite (checkRateLimit_fresh ip t0 store Hstart).
  pose proof (checkAll_window_store ip (t0 + 60000) 1 times
                (<[ip := {| count := 1; resetTime := t0 + 60000 |}]> store)) as Hstore.
  rewrite lookup_insert_eq in Hstore. specialize (Hstore eq_refl Hwin ltac:(lia)).
  destruct (checkAll ip times _) as [decisions store1]. cbn [snd] in *.
  rewrite (checkRateLimit_fresh ip t1 store1).
  2:{ right. eexists. split; [exact Hstore|]. cbn. lia. }
  cbn [fst snd]. split; [done|]. apply lookup_insert_eq.
Qed.

Lemma POST_appends request rt srv :
  exists added, logFile (disk (POST isURL request rt srv).2) = logFile (disk srv) +:+ added.
Proof.
  assert (forall s : string, s = s +:+ "") as Hnil.
  { intros s. induction s as [|c s IH]; [done|]. by rewrite append_cons, <- IH. }
  assert (admitted request rt srv \/ ~ admitted request rt srv) as [Hok|Hrej].
  { unfold admitted. destruct (checkRateLimit _ _ _).1; [by left|by right]. }
  2:{ rewrite POST_rejected by done. exists ""%string. apply Hnil. }
  destruct (NextRequest.json request) as [body|] eqn:Hjson.
  2:{ rewrite POST_invalid; [by exists ""%string; apply Hnil|done|].
      unfold invalidBody. by rewrite Hjson. }
  destruct (ErrorLogSchema isURL body) as [validatedData|] eqn:Hparse.
  2:{ rewrite POST_invalid; [by exists ""%string; apply Hnil|done|].
      unfold invalidBody. by rewrite Hjson. }
  assert (persists rt srv \/ ~ persists rt srv) as [Hfs|Hfs].
  { unfold persists.
    destruct (logDirExists (disk srv)), (mkdirSyncFails rt), (appendFileSyncFails rt);
      first [by left | right; intros [Hmk Happ]; first [discriminate Happ | by specialize (Hmk eq_refl)]]. }
  - rewrite (POST_valid isURL request rt srv body validatedData) by done. by eexists.
  - destruct (POST_unpersisted isURL _ _ _ _ _ Hok Hjson Hparse Hfs) as [_ ->].
    exists ""%string. apply Hnil.
Qed.

(** X25. The log of the endpoint is append-only: after any series of
    requests, valid or not, admitted or not, with or without failures of the
    disk, the log file is its former content followed by what was added. *)
Theorem log_is_append_only requests srv :
  exists added, logFile (disk (POSTs isURL requests srv).2) = logFile (disk srv) +:+ added.
Proof.
  revert srv. induction requests as [|[request rt] requests IH]; intros srv.
  { exists ""%string. cbn [POSTs snd]. induction (logFile (disk srv)) as [|c s IHs]; [done|].
    by rewrite append_cons, <- IHs. }
  cbn [POSTs]. destruct (POST_appends request rt srv) as [added1 Hone].
  destruct (POST isURL request rt srv) as [response srv1]. cbn [snd] in Hone.
  destruct (IH srv1) as [added2 Hrest].
  destruct (POSTs isURL requests srv1) as [responses srv2]. cbn [snd] in *.
  exists (added1 +:+ added2). by rewrite Hrest, Hone, string_app_assoc.
Qed.
End WindowAndLog.

Section OpenBreaker.
Import CircuitBreaker.
Context {W T E : Type} (now : W -> Z).

(** X26. An open breaker protects the dependency until the timeout is
    over: whatever number of calls is made while at most [resetTimeout] has
    passed since the last failure, the operation of none of them is called
    and the breaker stays exactly as it was. *)
Theorem open_breaker_refuses_all (cb : t) (calls : list ((W -> result T E * W) * W)) :
  state cb = OPEN ->
  Forall (fun call => now call.2 - lastFailureTime cb <= resetTimeout cb) calls ->
  executeAll now cb calls = cb
  /\ Forall (fun call =>
               execute now cb call.1 call.2
               = {| completed := Threw (NewError "Circuit breaker is OPEN");
                    breaker := cb; world := call.2; trace := [] |}) calls.
Proof.
  intros Hopen Hall.
  assert (forall (fn : W -> result T E * W) w,
            now w - lastFailureTime cb <= resetTimeout cb ->
            execute now cb fn w
            = {| completed := Threw (NewError "Circuit breaker is OPEN");
                 breaker := cb; world := w; trace := [] |}) as Hrefuse.
  { intros fn w Hearly. unfold execute, guard. rewrite Hopen.
    destruct (Z.ltb_spec (resetTimeout cb) (now w - lastFailureTime cb)); [lia|done]. }
  split.
  - induction Hall as [|[fn w] calls Hcall _ IH]; [done|].
    cbn [executeAll]. by rewrite (Hrefuse fn w Hcall).
  - eapply Forall_impl; [exact Hall|]. intros [fn w] Hcall. by apply Hrefuse.
Qed.
End OpenBreaker.

Lemma rate_limit_window_is_fixed_witness :
  (checkRateLimit "203.0.113.7" 61001
     (checkAll "203.0.113.7" (1000 :: replicate 30 2000) ∅).2).1 = true
  /\ (checkRateLimit "203.0.113.7" 61001
        (checkAll "203.0.113.7" (1000 :: replicate 30 2000) ∅).2).2 !! "203.0.113.7"%string
     = Some {| count := 1; resetTime := 61001 + 60000 |}.
Proof.
  apply (rate_limit_window_is_fixed "203.0.113.7" 1000 61001 (replicate 30 2000) ∅).
  - left. apply lookup_empty.
  - repeat constructor; lia.
  - lia.
Defined.

Lemma open_breaker_refuses_all_witness :
  CircuitBreaker.executeAll id tripped_breaker [(up, 200); (up, 60101)] = tripped_breaker
  /\ Forall (fun call =>
               CircuitBreaker.execute id tripped_breaker call.1 call.2
               = {| CircuitBreaker.completed := Threw (NewError "Circuit breaker is OPEN");
                    CircuitBreaker.breaker := tripped_breaker;
                    CircuitBreaker.world := call.2; CircuitBreaker.trace := [] |})
       [(up, 200); (up, 60101)].
Proof.
  apply (open_breaker_refuses_all id tripped_breaker [(up, 200); (up, 60101)]).
  - reflexivity.
  - repeat constructor; vm_compute; discriminate.
Defined.
